(** * request-baskets: the basket engine of [baskets.go]

    A shallow embedding of the request record ([RequestData]) with its
    search predicate ([Matches]) and forwarding logic ([Forward]), and of the
    statistics reducer ([DatabaseStats.Collect], [collectConditionally],
    [UpdateAvarage]), together with the properties of these operations.

    The first part is the model, in the order of the source; the second
    part gives the vocabulary of the properties and the data of the examples;
    the third part proves the properties.

    Conventions.
    - Go strings are byte sequences: [string] (a list of [ascii]).
    - Go [int] and [int64] are modelled as [Z] with 64-bit two's complement
      wrap-around written out ([wrap64]).
    - A Go map is a reference: header maps live in a store and are addressed
      by location; [range] over a map visits the entries in an order chosen
      by the runtime, modelled by an arbitrary enumeration ([MapRange]).
    - A Go [(value, error)] pair returned by [Forward] is a pair of options
      ([None] is [nil]); an [error] is represented by its message. *)

From Stdlib Require Import ZArith Ascii String.
From stdpp Require Import gmap strings list fin_maps sorting.

Local Open Scope Z_scope.

(** ** Go's [strings] package (the functions [baskets.go] uses) *)

Module strings.

(** [len(s)], as a Go [int]. *)
Definition len (s : string) : Z := Z.of_nat (String.length s).

(** [s[n:]] for [n <= len(s)]. *)
Fixpoint drop (n : nat) (s : string) : string :=
  match n, s with
  | O, _ => s
  | S n', String _ s' => drop n' s'
  | S _, EmptyString => EmptyString
  end.

(** [s[:n]] for [n <= len(s)]. *)
Fixpoint take (n : nat) (s : string) : string :=
  match n, s with
  | O, _ => EmptyString
  | S n', String c s' => String c (take n' s')
  | S _, EmptyString => EmptyString
  end.

(** [strings.HasPrefix]: [len(s) >= len(prefix) && s[:len(prefix)] == prefix]. *)
Definition HasPrefix (s prefix : string) : bool :=
  (String.length prefix <=? String.length s)%nat
  && bool_decide (take (String.length prefix) s = prefix).

(** [strings.HasSuffix]: [len(s) >= len(suffix) && s[len(s)-len(suffix):] == suffix]. *)
Definition HasSuffix (s suffix : string) : bool :=
  (String.length suffix <=? String.length s)%nat
  && bool_decide (drop (String.length s - String.length suffix) s = suffix).

(** [strings.TrimPrefix]. *)
Definition TrimPrefix (s prefix : string) : string :=
  if HasPrefix s prefix then drop (String.length prefix) s else s.

(** [strings.TrimSuffix]. *)
Definition TrimSuffix (s suffix : string) : string :=
  if HasSuffix s suffix
  then take (String.length s - String.length suffix) s else s.

(** [strings.Contains(s, substr)], that is [strings.Index(s, substr) >= 0]:
    [substr] is searched at every offset of [s], the end included. *)
Fixpoint Contains (s substr : string) : bool :=
  HasPrefix s substr
  || match s with
     | EmptyString => false
     | String _ s' => Contains s' substr
     end.

End strings.

(** ** [net/textproto]: canonical header keys *)

Module textproto.

Definition byte_in (lo hi : N) (c : ascii) : bool :=
  (lo <=? N_of_ascii c)%N && (N_of_ascii c <=? hi)%N.

Definition is_lower (c : ascii) : bool := byte_in 97 122 c.
Definition is_upper (c : ascii) : bool := byte_in 65 90 c.
Definition is_digit (c : ascii) : bool := byte_in 48 57 c.

(** [validHeaderFieldByte]: the [token] characters of RFC 7230. *)
Definition validHeaderFieldByte (c : ascii) : bool :=
  is_lower c || is_upper c || is_digit c
  || bool_decide (c ∈ ["!"; "#"; "$"; "%"; "&"; "'"; "*"; "+"; "-"; ".";
                       "^"; "_"; "`"; "|"; "~"]%char).

Definition toLower : N := 32.

(** The second loop of [canonicalMIMEHeaderKey]: upper case for the first
    letter and for a letter after a dash, lower case for the others. *)
Fixpoint canon_loop (upper : bool) (a : string) : string :=
  match a with
  | EmptyString => EmptyString
  | String c a' =>
      let c' :=
        if upper && is_lower c then ascii_of_N (N_of_ascii c - toLower)
        else if negb upper && is_upper c then ascii_of_N (N_of_ascii c + toLower)
        else c in
      String c' (canon_loop (bool_decide (c' = "-"%char)) a')
  end.

Fixpoint all_bytes (p : ascii → bool) (s : string) : bool :=
  match s with
  | EmptyString => true
  | String c s' => p c && all_bytes p s'
  end.

(** [textproto.CanonicalMIMEHeaderKey]: a key with a byte that is not a
    token character is returned unchanged; any other key is put in
    canonical form. (The function's first loop only detects keys that are
    canonical already and returns them as they are.) *)
Definition CanonicalMIMEHeaderKey (s : string) : string :=
  if all_bytes validHeaderFieldByte s then canon_loop true s else s.

End textproto.

(** ** [http.Header] values *)

Module Header.

(** [h.Values(key)] without canonicalisation, i.e. [h[key]]: the values
    stored under [key], none when the key is absent. *)
Definition values (h : gmap string (list string)) (key : string) : list string :=
  default [] (h !! key).

(** [h.Add(key, value)]. *)
Definition Add (h : gmap string (list string)) (key value : string)
  : gmap string (list string) :=
  let key := textproto.CanonicalMIMEHeaderKey key in
  <[key := values h key ++ [value]]> h.

(** [h.Set(key, value)]. *)
Definition Set_ (h : gmap string (list string)) (key value : string)
  : gmap string (list string) :=
  <[textproto.CanonicalMIMEHeaderKey key := [value]]> h.

(** [h.Del(key)]. *)
Definition Del (h : gmap string (list string)) (key : string)
  : gmap string (list string) :=
  delete (textproto.CanonicalMIMEHeaderKey key) h.

End Header.

(** The order in which [range] visits a header map: any enumeration of its
    entries. *)
Record MapRange := {
  range_of : gmap string (list string) → list (string * list string);
  range_of_perm : ∀ m, range_of m ≡ₚ map_to_list m
}.

(** ** Data model *)

(** [BasketConfig]. *)
Record BasketConfig := {
  ForwardURL : string;
  ProxyResponse : bool;
  InsecureTLS : bool;
  ExpandPath : bool;
  Capacity : Z
}.

(** [RequestData], as read through a [*RequestData]: the scalar fields and
    the contents of the header map. *)
Record RequestData := {
  Date : Z;
  Header : gmap string (list string);
  ContentLength : Z;
  Body : string;
  Method : string;
  Path : string;
  Query : string
}.

(** ** [RequestData.Matches] *)

Section Matches.
Context (order : MapRange).

(** [for _, val := range vals { if strings.Contains(val, query) { return true } }] *)
Fixpoint match_vals (query : string) (vals : list string) : bool :=
  match vals with
  | [] => false
  | val :: vals' =>
      if strings.Contains val query then true else match_vals query vals'
  end.

(** [for _, vals := range req.Header { ... }] *)
Fixpoint match_headers (query : string) (entries : list (string * list string)) : bool :=
  match entries with
  | [] => false
  | (_, vals) :: entries' =>
      if match_vals query vals then true else match_headers query entries'
  end.

(** [RequestData.Matches] *)
Definition Matches (req : RequestData) (query in_ : string) : bool :=
  (* detect where to search *)
  let '(inBody, inQuery, inHeaders) :=
    if bool_decide (in_ = "body") then (true, false, false)
    else if bool_decide (in_ = "query") then (false, true, false)
    else if bool_decide (in_ = "headers") then (false, false, true)
    else (true, true, true) in
  if inBody && strings.Contains (Body req) query then true
  else if inQuery && strings.Contains (Query req) query then true
  else if inHeaders then match_headers query (range_of order (Header req))
  else false.

End Matches.

(** ** Go integers *)

Module goint.

Definition min_int : Z := - 2 ^ 63.
Definition max_int : Z := 2 ^ 63 - 1.

(** The values of Go's [int] (64-bit targets) and [int64]. *)
Definition in_range (z : Z) : Prop := min_int ≤ z ≤ max_int.

(** Two's complement wrap-around of an exact result. *)
Definition wrap64 (z : Z) : Z := (z + 2 ^ 63) mod 2 ^ 64 - 2 ^ 63.

Definition add (a b : Z) : Z := wrap64 (a + b).
Definition sub (a b : Z) : Z := wrap64 (a - b).

(** [a / b] for [b != 0]: truncated towards zero; [min_int / -1] wraps. *)
Definition quo (a b : Z) : Z := wrap64 (Z.quot a b).

End goint.

(** A computation that may panic. *)
Inductive result (A : Type) : Type :=
  | Ok (a : A)
  | Panic.
Arguments Ok {A} a.
Arguments Panic {A}.

Definition result_bind {A B} (r : result A) (k : A → result B) : result B :=
  match r with
  | Ok a => k a
  | Panic => Panic
  end.

(** ** Statistics *)

(** [BasketInfo]. *)
Module BasketInfo.
Record t := {
  Name : string;
  RequestsCount : Z;
  RequestsTotalCount : Z;
  LastRequestDate : Z
}.
End BasketInfo.

(** [DatabaseStats]. The two top lists are slices of pointers: [None] is the
    [nil] slice, and an element [None] is a [nil] pointer. *)
Module DatabaseStats.
Record t := {
  BasketsCount : Z;
  EmptyBasketsCount : Z;
  RequestsCount : Z;
  RequestsTotalCount : Z;
  MaxBasketSize : Z;
  AvgBasketSize : Z;
  TopBasketsBySize : option (list (option BasketInfo.t));
  TopBasketsByDate : option (list (option BasketInfo.t))
}.

(** The zero value, [DatabaseStats{}]. *)
Definition zero : t := {|
  BasketsCount := 0;
  EmptyBasketsCount := 0;
  RequestsCount := 0;
  RequestsTotalCount := 0;
  MaxBasketSize := 0;
  AvgBasketSize := 0;
  TopBasketsBySize := None;
  TopBasketsByDate := None
|}.
End DatabaseStats.

Section Stats.
(** The largest capacity [make([]*BasketInfo, 0, size)] accepts; it depends
    on the platform. A negative or larger [size] panics. *)
Context (max_slice_cap : Z).

(** [copy(col[dst:], col[src:])] for [dst, src <= len(col)]: the elements
    are moved as by [memmove], as many as fit. *)
Definition copy_within {A} (col : list A) (dst src : nat) : list A :=
  let n := Nat.min (length col - dst) (length col - src) in
  take dst col ++ take n (drop src col) ++ drop (dst + n)%nat col.

Section collectConditionally.
Context (basket : BasketInfo.t) (size : Z)
        (greater : BasketInfo.t → BasketInfo.t → bool).

(** The body of [if greater(basket, b)] at index [i]. *)
Definition insert_here (col : list (option BasketInfo.t)) (i : nat)
  : list (option BasketInfo.t) :=
  let col := if Z.of_nat (length col) <? size then col ++ [None] else col in
  let col := copy_within col (i + 1)%nat i in
  <[i := Some basket]> col.

(** [for i, b := range col { if greater(basket, b) { ...; return col } }]
    from index [i] on, [rest] being [col[i:]]; [Ok None] when the loop
    ends without returning. *)
Fixpoint range_col (col : list (option BasketInfo.t)) (i : nat)
    (rest : list (option BasketInfo.t))
  : result (option (list (option BasketInfo.t))) :=
  match rest with
  | [] => Ok None
  | None :: _ => Panic (* greater dereferences a nil pointer *)
  | Some b :: rest' =>
      if greater basket b then Ok (Some (insert_here col i))
      else range_col col (S i) rest'
  end.

(** [collectConditionally(col, basket, size, greater)] *)
Definition collectConditionally (col : option (list (option BasketInfo.t)))
  : result (option (list (option BasketInfo.t))) :=
  match col with
  | None =>
      if (size <? 0) || (max_slice_cap <? size) then Panic
      else Ok (Some ([] ++ [Some basket]))
  | Some col =>
      result_bind (range_col col 0 col) (λ returned,
        match returned with
        | Some col' => Ok (Some col')
        | None =>
            if Z.of_nat (length col) <? size
            then Ok (Some (col ++ [Some basket]))
            else Ok (Some col)
        end)
  end.
End collectConditionally.

(** [DatabaseStats.Collect] for a [basket] that is not [nil]; the receiver is
    updated in place, here the updated value is returned. *)
Definition Collect (stats : DatabaseStats.t) (basket : BasketInfo.t) (max : Z)
  : result DatabaseStats.t :=
  let BasketsCount := goint.add (DatabaseStats.BasketsCount stats) 1 in
  let EmptyBasketsCount :=
    if BasketInfo.RequestsTotalCount basket =? 0
    then goint.add (DatabaseStats.EmptyBasketsCount stats) 1
    else DatabaseStats.EmptyBasketsCount stats in
  let RequestsCount :=
    goint.add (DatabaseStats.RequestsCount stats) (BasketInfo.RequestsCount basket) in
  let RequestsTotalCount :=
    goint.add (DatabaseStats.RequestsTotalCount stats)
              (BasketInfo.RequestsTotalCount basket) in
  let MaxBasketSize :=
    if BasketInfo.RequestsTotalCount basket >? DatabaseStats.MaxBasketSize stats
    then BasketInfo.RequestsTotalCount basket
    else DatabaseStats.MaxBasketSize stats in
  (* top baskets by size *)
  result_bind
    (collectConditionally basket max
       (λ b1 b2, BasketInfo.RequestsTotalCount b1 >? BasketInfo.RequestsTotalCount b2)
       (DatabaseStats.TopBasketsBySize stats))
    (λ TopBasketsBySize,
  (* top baskets by recent activity *)
  result_bind
    (collectConditionally basket max
       (λ b1 b2, BasketInfo.LastRequestDate b1 >? BasketInfo.LastRequestDate b2)
       (DatabaseStats.TopBasketsByDate stats))
    (λ TopBasketsByDate,
  Ok {| DatabaseStats.BasketsCount := BasketsCount;
        DatabaseStats.EmptyBasketsCount := EmptyBasketsCount;
        DatabaseStats.RequestsCount := RequestsCount;
        DatabaseStats.RequestsTotalCount := RequestsTotalCount;
        DatabaseStats.MaxBasketSize := MaxBasketSize;
        DatabaseStats.AvgBasketSize := DatabaseStats.AvgBasketSize stats;
        DatabaseStats.TopBasketsBySize := TopBasketsBySize;
        DatabaseStats.TopBasketsByDate := TopBasketsByDate |})).

(** A sequence of snapshots folded through [Collect] with bound [max]. *)
Fixpoint collect_all (stats : DatabaseStats.t) (baskets : list BasketInfo.t) (max : Z)
  : result DatabaseStats.t :=
  match baskets with
  | [] => Ok stats
  | basket :: baskets' =>
      result_bind (Collect stats basket max) (λ stats', collect_all stats' baskets' max)
  end.

(** [DatabaseStats.UpdateAvarage]; an integer division by zero panics. *)
Definition UpdateAvarage (stats : DatabaseStats.t) : result DatabaseStats.t :=
  let set_avg avg :=
    {| DatabaseStats.BasketsCount := DatabaseStats.BasketsCount stats;
       DatabaseStats.EmptyBasketsCount := DatabaseStats.EmptyBasketsCount stats;
       DatabaseStats.RequestsCount := DatabaseStats.RequestsCount stats;
       DatabaseStats.RequestsTotalCount := DatabaseStats.RequestsTotalCount stats;
       DatabaseStats.MaxBasketSize := DatabaseStats.MaxBasketSize stats;
       DatabaseStats.AvgBasketSize := avg;
       DatabaseStats.TopBasketsBySize := DatabaseStats.TopBasketsBySize stats;
       DatabaseStats.TopBasketsByDate := DatabaseStats.TopBasketsByDate stats |} in
  if DatabaseStats.BasketsCount stats >? DatabaseStats.EmptyBasketsCount stats then
    let d := goint.sub (DatabaseStats.BasketsCount stats)
                       (DatabaseStats.EmptyBasketsCount stats) in
    if d =? 0 then Panic
    else Ok (set_avg (goint.quo (DatabaseStats.RequestsTotalCount stats) d))
  else Ok (set_avg 0).

End Stats.

(** ** [net/url] and [net/http]: the types [Forward] works with *)

Module url.
Record Userinfo := {
  username : string;
  password : string;
  passwordSet : bool
}.

(** [url.URL]. *)
Record URL := {
  Scheme : string;
  Opaque : string;
  User : option Userinfo;
  Host : string;
  Path : string;
  RawPath : string;
  ForceQuery : bool;
  RawQuery : string;
  Fragment : string;
  RawFragment : string
}.

(** [u.Path = p] *)
Definition set_Path (u : URL) (p : string) : URL :=
  {| Scheme := Scheme u; Opaque := Opaque u; User := User u; Host := Host u;
     Path := p; RawPath := RawPath u; ForceQuery := ForceQuery u;
     RawQuery := RawQuery u; Fragment := Fragment u;
     RawFragment := RawFragment u |}.

(** [u.RawQuery = q] *)
Definition set_RawQuery (u : URL) (q : string) : URL :=
  {| Scheme := Scheme u; Opaque := Opaque u; User := User u; Host := Host u;
     Path := Path u; RawPath := RawPath u; ForceQuery := ForceQuery u;
     RawQuery := q; Fragment := Fragment u; RawFragment := RawFragment u |}.

(** [u.Host = h] *)
Definition set_Host (u : URL) (h : string) : URL :=
  {| Scheme := Scheme u; Opaque := Opaque u; User := User u; Host := h;
     Path := Path u; RawPath := RawPath u; ForceQuery := ForceQuery u;
     RawQuery := RawQuery u; Fragment := Fragment u;
     RawFragment := RawFragment u |}.
End url.

Module http.
Definition StatusBadGateway : Z := 502.

(** An [http.Request] as the client receives it: the fields that
    [http.NewRequest] fills from its arguments, and the header contents. *)
Module Request.
Record t := {
  Method : string;
  URL : url.URL;
  Header : gmap string (list string);
  Body : string;
  Host : string
}.
End Request.

(** An [http.Response]: status code, headers and the contents of the body. *)
Module Response.
Record t := {
  StatusCode : Z;
  Header : gmap string (list string);
  Body : string
}.
End Response.

(** [validMethod]: a non-empty sequence of token characters. *)
Definition validMethod (method : string) : bool :=
  (0 <? strings.len method)
  && textproto.all_bytes textproto.validHeaderFieldByte method.
End http.

(** The functions of the Go library that [Forward] calls and that are not
    modelled further: URL parsing and printing, the quoting of [%q], and the
    normalisation of an empty port. A library function returning
    [(value, error)] returns [inl value] or [inr message]. *)
Record GoLib := {
  url_ParseRequestURI : string → url.URL + string;
  url_Parse : string → url.URL + string;
  URL_String : url.URL → string;
  strconv_Quote : string → string;
  removeEmptyPort : string → string
}.

(** [client.Do] of a client that is not [nil]: the response and the error
    the client returns for a request. *)
Definition Client : Type :=
  http.Request.t → option http.Response.t * option string.

(** ** The store *)

Definition loc : Type := positive.

(** A [RequestData] struct in memory; its header map is a reference ([None]
    is the [nil] map). *)
Record RequestDataObj := {
  obj_Date : Z;
  obj_Header : option loc;
  obj_ContentLength : Z;
  obj_Body : string;
  obj_Method : string;
  obj_Path : string;
  obj_Query : string
}.

(** The [*http.Request] under construction; its header map is a reference. *)
Record RequestObj := {
  new_Method : string;
  new_URL : url.URL;
  new_Header : loc;
  new_Body : string;
  new_Host : string
}.

(** The memory ([RequestData] structs and header maps), the lines written to
    the log, and the requests handed to [client.Do] so far. *)
Record store := {
  objs : gmap loc RequestDataObj;
  maps : gmap loc (gmap string (list string));
  logs : list string;
  wire : list http.Request.t
}.

Definition set_map (l : loc) (h : gmap string (list string)) (σ : store) : store :=
  {| objs := objs σ; maps := <[l := h]> (maps σ); logs := logs σ; wire := wire σ |}.

Definition add_log (msg : string) (σ : store) : store :=
  {| objs := objs σ; maps := maps σ; logs := logs σ ++ [msg]; wire := wire σ |}.

Definition add_wire (q : http.Request.t) (σ : store) : store :=
  {| objs := objs σ; maps := maps σ; logs := logs σ; wire := wire σ ++ [q] |}.

(** Computations on the store that may panic. *)
Definition M (A : Type) : Type := store → result (A * store).

Definition ret {A} (a : A) : M A := λ σ, Ok (a, σ).

Definition bind {A B} (m : M A) (k : A → M B) : M B :=
  λ σ, match m σ with
       | Ok (a, σ') => k a σ'
       | Panic => Panic
       end.

Notation "'let*' x := m 'in' k" := (bind m (λ x, k))
  (at level 10, x pattern, m at level 100, k at level 200, only parsing).
Notation "'do' m 'then' k" := (bind m (λ _, k))
  (at level 10, m at level 100, k at level 200, only parsing).

(** Reading through a [*RequestData]; a [nil] receiver panics. *)
Definition deref (req : loc) : M RequestData := λ σ,
  match objs σ !! req with
  | None => Panic
  | Some o =>
      let view h :=
        {| Date := obj_Date o; Header := h; ContentLength := obj_ContentLength o;
           Body := obj_Body o; Method := obj_Method o; Path := obj_Path o;
           Query := obj_Query o |} in
      match obj_Header o with
      | None => Ok (view ∅, σ)
      | Some l =>
          match maps σ !! l with
          | None => Panic
          | Some h => Ok (view h, σ)
          end
      end
  end.

(** [make(http.Header)] *)
Definition make_map : M loc := λ σ,
  let l := fresh (dom (maps σ)) in Ok (l, set_map l ∅ σ).

(** An update of the map at [l] in place. *)
Definition update_map (l : loc)
    (f : gmap string (list string) → gmap string (list string)) : M unit := λ σ,
  match maps σ !! l with
  | None => Panic
  | Some h => Ok ((), set_map l (f h) σ)
  end.

Definition read_map (l : loc) : M (gmap string (list string)) := λ σ,
  match maps σ !! l with
  | None => Panic
  | Some h => Ok (h, σ)
  end.

(** [log.Printf], the message without the logger's prefix. *)
Definition log_Printf (msg : string) : M unit := λ σ, Ok ((), add_log msg σ).

(** [client.Do(req)]: the request goes out and the client answers. *)
Definition client_Do (client : Client) (q : http.Request.t)
  : M (option http.Response.t * option string) := λ σ,
  Ok (client q, add_wire q σ).

(** ** [RequestData.Forward] *)

(** [DoNotForwardHeader] *)
Definition DoNotForwardHeader : string := "X-Do-Not-Forward".

(** [expandURL] *)
Definition expandURL (url original basket : string) : string :=
  strings.TrimSuffix url "/" +:+ strings.TrimPrefix original ("/" +:+ basket).

(** The forward URL after [// expand path] and [// append query]. *)
Definition forward_target (req : RequestData) (config : BasketConfig)
    (basket : string) (forwardURL : url.URL) : url.URL :=
  (* expand path *)
  let forwardURL :=
    if ExpandPath config && (strings.len (Path req) >? strings.len basket + 1)
    then url.set_Path forwardURL (expandURL (url.Path forwardURL) (Path req) basket)
    else forwardURL in
  (* append query *)
  if strings.len (Query req) >? 0 then
    if strings.len (url.RawQuery forwardURL) >? 0
    then url.set_RawQuery forwardURL
           (url.RawQuery forwardURL +:+ "&" +:+ Query req)
    else url.set_RawQuery forwardURL (Query req)
  else forwardURL.

Section Forward.
Context (lib : GoLib) (order : MapRange).

(** [http.NewRequest(method, url, strings.NewReader(body))] *)
Definition http_NewRequest (method url body : string)
  : M (option RequestObj * option string) :=
  let method := if bool_decide (method = "") then "GET" else method in
  if negb (http.validMethod method) then
    ret (None, Some ("net/http: invalid method " +:+ strconv_Quote lib method))
  else
    match url_Parse lib url with
    | inr err => ret (None, Some err)
    | inl u =>
        let u := url.set_Host u (removeEmptyPort lib (url.Host u)) in
        let* h := make_map in
        ret (Some {| new_Method := method; new_URL := u; new_Header := h;
                     new_Body := body; new_Host := url.Host u |}, None)
    end.

(** [for _, val := range vals { forwardReq.Header.Add(header, val) }] *)
Fixpoint add_vals (h : loc) (header : string) (vals : list string) : M unit :=
  match vals with
  | [] => ret ()
  | val :: vals' =>
      do update_map h (λ m, Header.Add m header val) then
      add_vals h header vals'
  end.

(** [for header, vals := range req.Header { ... }] *)
Fixpoint copy_headers (h : loc) (entries : list (string * list string)) : M unit :=
  match entries with
  | [] => ret ()
  | (header, vals) :: entries' =>
      do add_vals h header vals then
      copy_headers h entries'
  end.

(** [forwardHeadersCleanup] *)
Definition forwardHeadersCleanup (req : RequestObj) : M unit :=
  do update_map (new_Header req) (λ m, Header.Del m "Connection") then
  do update_map (new_Header req) (λ m, Header.Del m "Upgrade") then
  update_map (new_Header req) (λ m, Header.Del m "TE").

(** The request as [client.Do] receives it. *)
Definition sent (req : RequestObj) : M http.Request.t :=
  let* h := read_map (new_Header req) in
  ret {| http.Request.Method := new_Method req;
         http.Request.URL := new_URL req;
         http.Request.Header := h;
         http.Request.Body := new_Body req;
         http.Request.Host := new_Host req |}.

(** Lines 173 to 187: the outbound request is created and its headers are
    filled; [inr] is the error that [Forward] returns when
    [http.NewRequest] fails. *)
Definition build_request (req : RequestData) (forwardURL : url.URL)
  : M (RequestObj + string) :=
  let* r := http_NewRequest (Method req) (URL_String lib forwardURL) (Body req) in
  match r with
  | (_, Some err) => ret (inr ("failed to create forward request: " +:+ err))
  | (None, None) => λ _, Panic
  | (Some forwardReq, None) =>
      (* copy headers *)
      do copy_headers (new_Header forwardReq) (range_of order (Header req)) then
      (* headers cleanup *)
      do forwardHeadersCleanup forwardReq then
      (* set do not forward header *)
      do update_map (new_Header forwardReq)
           (λ m, Header.Set_ m DoNotForwardHeader "1") then
      ret (inl forwardReq)
  end.

(** The synthesized response of the [// HTTP issue during forwarding]
    branch. *)
Definition badGatewayResp (err : string) : http.Response.t :=
  {| http.Response.StatusCode := http.StatusBadGateway;
     http.Response.Header := Header.Set_ ∅ "Content-Type" "text/plain";
     http.Response.Body := "Failed to forward request: " +:+ err |}.

(** [RequestData.Forward]; [req] is the receiver. *)
Definition Forward (req : loc) (client : Client) (config : BasketConfig)
    (basket : string) : M (option http.Response.t * option string) :=
  match url_ParseRequestURI lib (ForwardURL config) with
  | inr err =>
      ret (None, Some ("invalid forward URL: " +:+ ForwardURL config
                       +:+ " - " +:+ err))
  | inl forwardURL =>
      let* r := deref req in
      let forwardURL := forward_target r config basket forwardURL in
      let* built := build_request r forwardURL in
      match built with
      | inr err => ret (None, Some err)
      | inl forwardReq =>
          (* forward request *)
          let* q := sent forwardReq in
          let* answer := client_Do client q in
          match answer with
          | (_, Some err) =>
              (* HTTP issue during forwarding - HTTP 502 Bad Gateway *)
              do log_Printf ("[warn] failed to forward request for basket: "
                             +:+ basket +:+ " - " +:+ err) then
              ret (Some (badGatewayResp err), None)
          | (response, None) => ret (response, None)
          end
      end
  end.
End Forward.

(** ** [ToRequestData] *)

(** [toMs]: the nanoseconds of a millisecond. *)
Definition toMs : Z := 1000000.

(** The [*http.Request] that [ToRequestData] converts: the fields it reads.
    The header map is a reference; a [nil] URL or a [nil] body makes the
    conversion panic. [in_Body] is what [ioutil.ReadAll(req.Body)] returns,
    that is the bytes read until the end or until an error, which is
    discarded. *)
Record InboundRequest := {
  in_Method : string;
  in_URL : option url.URL;
  in_Header : option loc;
  in_ContentLength : Z;
  in_Body : option string
}.

Definition set_obj (l : loc) (o : RequestDataObj) (σ : store) : store :=
  {| objs := <[l := o]> (objs σ); maps := maps σ; logs := logs σ; wire := wire σ |}.

(** The zero value of [RequestData]. *)
Definition zero_obj : RequestDataObj :=
  {| obj_Date := 0; obj_Header := None; obj_ContentLength := 0; obj_Body := "";
     obj_Method := ""; obj_Path := ""; obj_Query := "" |}.

(** [new(RequestData)] *)
Definition new_RequestData : M loc := λ σ,
  let l := fresh (dom (objs σ)) in Ok (l, set_obj l zero_obj σ).

(** An assignment to a field of the struct at [l]. *)
Definition update_obj (l : loc) (f : RequestDataObj → RequestDataObj) : M unit := λ σ,
  match objs σ !! l with
  | None => Panic
  | Some o => Ok ((), set_obj l (f o) σ)
  end.

Definition with_Date (v : Z) (o : RequestDataObj) : RequestDataObj :=
  {| obj_Date := v; obj_Header := obj_Header o;
     obj_ContentLength := obj_ContentLength o; obj_Body := obj_Body o;
     obj_Method := obj_Method o; obj_Path := obj_Path o; obj_Query := obj_Query o |}.

Definition with_Header (v : option loc) (o : RequestDataObj) : RequestDataObj :=
  {| obj_Date := obj_Date o; obj_Header := v;
     obj_ContentLength := obj_ContentLength o; obj_Body := obj_Body o;
     obj_Method := obj_Method o; obj_Path := obj_Path o; obj_Query := obj_Query o |}.

Definition with_ContentLength (v : Z) (o : RequestDataObj) : RequestDataObj :=
  {| obj_Date := obj_Date o; obj_Header := obj_Header o;
     obj_ContentLength := v; obj_Body := obj_Body o;
     obj_Method := obj_Method o; obj_Path := obj_Path o; obj_Query := obj_Query o |}.

Definition with_Body (v : string) (o : RequestDataObj) : RequestDataObj :=
  {| obj_Date := obj_Date o; obj_Header := obj_Header o;
     obj_ContentLength := obj_ContentLength o; obj_Body := v;
     obj_Method := obj_Method o; obj_Path := obj_Path o; obj_Query := obj_Query o |}.

Definition with_Method (v : string) (o : RequestDataObj) : RequestDataObj :=
  {| obj_Date := obj_Date o; obj_Header := obj_Header o;
     obj_ContentLength := obj_ContentLength o; obj_Body := obj_Body o;
     obj_Method := v; obj_Path := obj_Path o; obj_Query := obj_Query o |}.

Definition with_Path (v : string) (o : RequestDataObj) : RequestDataObj :=
  {| obj_Date := obj_Date o; obj_Header := obj_Header o;
     obj_ContentLength := obj_ContentLength o; obj_Body := obj_Body o;
     obj_Method := obj_Method o; obj_Path := v; obj_Query := obj_Query o |}.

Definition with_Query (v : string) (o : RequestDataObj) : RequestDataObj :=
  {| obj_Date := obj_Date o; obj_Header := obj_Header o;
     obj_ContentLength := obj_ContentLength o; obj_Body := obj_Body o;
     obj_Method := obj_Method o; obj_Path := obj_Path o; obj_Query := v |}.

(** The entries that [range] visits in the map [h]; the [nil] map has
    none. *)
Definition range_map (order : MapRange) (h : option loc)
  : M (list (string * list string)) := λ σ,
  match h with
  | None => Ok ([], σ)
  | Some l =>
      match maps σ !! l with
      | None => Panic
      | Some m => Ok (range_of order m, σ)
      end
  end.

(** [for k, v := range req.Header { data.Header[k] = v }] *)
Fixpoint copy_entries (h : loc) (entries : list (string * list string)) : M unit :=
  match entries with
  | [] => ret ()
  | (k, v) :: entries' =>
      do update_map h (λ m, <[k := v]> m) then
      copy_entries h entries'
  end.

(** [ToRequestData]; [now] is [time.Now().UnixNano()]. The result is the
    pointer to the new struct. *)
Definition ToRequestData (order : MapRange) (now : Z) (req : InboundRequest) : M loc :=
  let* data := new_RequestData in
  do update_obj data (with_Date (goint.quo now toMs)) then
  let* h := make_map in
  do update_obj data (with_Header (Some h)) then
  let* entries := range_map order (in_Header req) in
  do copy_entries h entries then
  do update_obj data (with_ContentLength (in_ContentLength req)) then
  do update_obj data (with_Method (in_Method req)) then
  match in_URL req with
  | None => λ _, Panic
  | Some u =>
      do update_obj data (with_Path (url.Path u)) then
      do update_obj data (with_Query (url.RawQuery u)) then
      match in_Body req with
      | None => λ _, Panic
      | Some body =>
          do update_obj data (with_Body body) then
          ret data
      end
  end.

(** ** The script interface: [ToStarlark], [headerToStarDict], [scriptResponse] *)

Module starlark.

(** The values of Starlark that the conversion builds. A dictionary keeps
    its entries in the order of insertion; the keys built here are
    strings. *)
Local Unset Elimination Schemes.
Inductive Value : Type :=
  | Int (z : Z)
  | Str (s : string)
  | List (elems : list Value)
  | Dict (entries : list (string * Value)).
Local Set Elimination Schemes.

(** [d.SetKey(String(k), v)] on a dictionary that is not frozen: the value of
    an existing key is replaced in place, a new key goes to the end. *)
Fixpoint SetKey (d : list (string * Value)) (k : string) (v : Value)
  : list (string * Value) :=
  match d with
  | [] => [(k, v)]
  | (k', v') :: d' =>
      if bool_decide (k' = k) then (k', v) :: d' else (k', v') :: SetKey d' k v
  end.

(** [d.Get(String(k))] *)
Fixpoint Get (d : list (string * Value)) (k : string) : option Value :=
  match d with
  | [] => None
  | (k', v') :: d' => if bool_decide (k' = k) then Some v' else Get d' k
  end.

End starlark.

(** [headerToStarDict] *)
Definition headerToStarDict (order : MapRange) (h : gmap string (list string))
  : list (string * starlark.Value) :=
  foldl (λ res e,
           let headers := foldl (λ headers v, headers ++ [starlark.Str v]) [] e.2 in
           starlark.SetKey res e.1 (starlark.List headers))
        [] (range_of order h).

(** [RequestData.ToStarlark] *)
Definition ToStarlark (order : MapRange) (r : RequestData) : list (string * starlark.Value) :=
  let res := [] in
  let res := starlark.SetKey res "Date" (starlark.Int (Date r)) in
  let res := starlark.SetKey res "ContentLength" (starlark.Int (ContentLength r)) in
  let res := starlark.SetKey res "Headers"
               (starlark.Dict (headerToStarDict order (Header r))) in
  let res := starlark.SetKey res "Body" (starlark.Str (Body r)) in
  let res := starlark.SetKey res "Method" (starlark.Str (Method r)) in
  let res := starlark.SetKey res "Path" (starlark.Str (Path r)) in
  let res := starlark.SetKey res "Query" (starlark.Str (Query r)) in
  res.

(** [starlark.ExecFile] on a thread with the given name: the messages the
    script prints, in order, and the error of the execution. *)
Definition Interpreter : Type :=
  string → string → string → list (string * starlark.Value)
  → list string * option string.

(** A call that returns, or ends the process as [log.Fatal] does: the
    message is logged and the process exits with status 1. *)
Inductive process (A : Type) : Type :=
  | Returns (a : A)
  | Exits (status : Z) (logged : string).
Arguments Returns {A} a.
Arguments Exits {A} status logged.

(** [fmt.Fprintln(out, msg)] on a buffer. *)
Definition Fprintln (out msg : string) : string := out +:+ msg +:+ String "010" "".

(** [scriptResponse] *)
Definition scriptResponse (exec : Interpreter) (order : MapRange)
    (bucket script : string) (req : RequestData)
  : process (string * option string) :=
  let '(printed, err) :=
    exec bucket "test.star" script
      [("request", starlark.Dict (ToStarlark order req))] in
  let out := foldl Fprintln "" printed in
  match err with
  | Some e => Exits 1 e
  | None => Returns (out, err)
  end.

(** * Vocabulary of the properties *)

(** [q] occurs in [s] as a contiguous run of bytes. *)
Definition occurs_in (q s : string) : Prop :=
  ∃ before after, s = before +:+ q +:+ after.

(** Some single value of the header map [h] satisfies [P]. *)
Definition some_header_value (h : gmap string (list string)) (P : string → Prop) : Prop :=
  ∃ name vals val, h !! name = Some vals ∧ val ∈ vals ∧ P val.

(** ** The top lists, as the statistics are described

    A sorted list of bounded capacity: an incoming item is inserted at the
    first position where the comparator prefers it, behind every item it
    does not beat. *)
Section top_list.
Context {A : Type} (greater : A → A → bool).

Fixpoint insert_desc (x : A) (l : list A) : list A :=
  match l with
  | [] => [x]
  | b :: l' => if greater x b then x :: b :: l' else b :: insert_desc x l'
  end.

(** All the items, inserted one after the other. *)
Definition sort_desc (l : list A) : list A :=
  foldl (λ acc x, insert_desc x acc) [] l.

(** The first [k] of them. *)
Definition top_k (k : nat) (l : list A) : list A := take k (sort_desc l).
End top_list.

(** The comparator of a key, and the order it sorts in. *)
Definition by_key {A} (key : A → Z) : A → A → bool := λ a b, key a >? key b.
Definition desc {A} (key : A → Z) : relation A := λ a b, key b ≤ key a.

(** The elements of a slice of pointers; the [nil] slice has none. *)
Definition elems {A} (s : option (list (option A))) : list (option A) := default [] s.

(** The slice that holds pointers to the snapshots [L]: [nil] until the
    first snapshot is collected. *)
Definition slice_of (L : list BasketInfo.t) : option (list (option BasketInfo.t)) :=
  match L with
  | [] => None
  | _ => Some (Some <$> L)
  end.

(** A slice without [nil] pointers. *)
Definition clean (slice : option (list (option BasketInfo.t))) : Prop :=
  ∀ col, slice = Some col → ∃ L : list BasketInfo.t, col = Some <$> L.

(** The length of a list of [n] elements after an insertion under the
    bound [K]. *)
Definition grown (K : Z) (n : nat) : nat := if Z.of_nat n <? K then S n else n.

(** [slice] is a top list of the snapshots [l] for [key] and the bound [K]:
    it holds [min(K, n)] of the snapshots, in non-increasing order of the
    key; the snapshots of one key value that it holds are the first ones
    collected, in the order in which they were collected; and no snapshot
    left out has a greater key than one that is held. *)
Definition is_top (key : BasketInfo.t → Z) (K : Z) (l : list BasketInfo.t)
    (slice : option (list (option BasketInfo.t))) : Prop :=
  ∃ top,
    elems slice = Some <$> top
    ∧ Z.of_nat (length top) = Z.min K (Z.of_nat (length l))
    ∧ top ⊆+ l
    ∧ StronglySorted (desc key) top
    ∧ (∀ v, filter (λ a, key a = v) top `prefix_of` filter (λ a, key a = v) l)
    ∧ ∃ dropped, top ++ dropped ≡ₚ l
        ∧ ∀ t d, t ∈ top → d ∈ dropped → key d ≤ key t.

(** ** What [Forward] computes

    The functions below describe the effect of [Forward] without the store;
    [Forward_run] proves that [Forward] computes them. *)

(** [m] after [Add(key, v)] for every [v] of [vals]. *)
Definition add_all (m : gmap string (list string)) (key : string) (vals : list string)
  : gmap string (list string) :=
  foldl (λ m v, Header.Add m key v) m vals.

(** [m] after the loop that copies the entries. *)
Definition copied (m : gmap string (list string)) (entries : list (string * list string))
  : gmap string (list string) :=
  foldl (λ m e, add_all m e.1 e.2) m entries.

(** The headers of the outbound request: the copy, the clean-up and the
    marker. *)
Definition outbound_headers (entries : list (string * list string))
  : gmap string (list string) :=
  Header.Set_
    (Header.Del (Header.Del (Header.Del (copied ∅ entries) "Connection") "Upgrade") "TE")
    DoNotForwardHeader "1".

(** The request that goes out for the record [r] and the target [u], or the
    error of [http.NewRequest]. *)
Definition outbound (lib : GoLib) (order : MapRange) (r : RequestData) (u : url.URL)
  : http.Request.t + string :=
  let method := if bool_decide (Method r = "") then "GET" else Method r in
  if negb (http.validMethod method)
  then inr ("net/http: invalid method " +:+ strconv_Quote lib method)
  else
    match url_Parse lib (URL_String lib u) with
    | inr err => inr err
    | inl u' =>
        let u' := url.set_Host u' (removeEmptyPort lib (url.Host u')) in
        inl {| http.Request.Method := method;
               http.Request.URL := u';
               http.Request.Header := outbound_headers (range_of order (Header r));
               http.Request.Body := Body r;
               http.Request.Host := url.Host u' |}
    end.

(** The result of [Forward] and the store it leaves, for a receiver that
    reads as [r]. *)
Definition forwarded (lib : GoLib) (order : MapRange) (r : RequestData)
    (client : Client) (config : BasketConfig) (basket : string) (σ : store)
  : (option http.Response.t * option string) * store :=
  match url_ParseRequestURI lib (ForwardURL config) with
  | inr err =>
      ((None, Some ("invalid forward URL: " +:+ ForwardURL config +:+ " - " +:+ err)), σ)
  | inl u =>
      match outbound lib order r (forward_target r config basket u) with
      | inr err => ((None, Some ("failed to create forward request: " +:+ err)), σ)
      | inl q =>
          let σ := add_wire q
                     (set_map (fresh (dom (maps σ))) (http.Request.Header q) σ) in
          match client q with
          | (_, Some err) =>
              ((Some (badGatewayResp err), None),
               add_log ("[warn] failed to forward request for basket: "
                        +:+ basket +:+ " - " +:+ err) σ)
          | (response, None) => ((response, None), σ)
          end
      end
  end.

(** [req] points to a record that reads as [r]. *)
Definition points_to (σ : store) (req : loc) (r : RequestData) : Prop :=
  deref req σ = Ok (r, σ).

(** The values captured under the header name [key], whatever the case of
    the captured name, in the order in which the entries are visited. *)
Definition captured_values (entries : list (string * list string)) (key : string)
  : list string :=
  concat (snd <$> filter (λ e, textproto.CanonicalMIMEHeaderKey e.1 = key) entries).

(** The header names are in the canonical form in which [net/http] stores
    them. *)
Definition canonical_names (h : gmap string (list string)) : Prop :=
  ∀ name vals, h !! name = Some vals → textproto.CanonicalMIMEHeaderKey name = name.

(** [t] is [s] without the suffix [x], or [s] itself when [s] does not end
    in [x]. *)
Definition without_suffix (s x t : string) : Prop :=
  s = t +:+ x ∨ ((¬ ∃ t', s = t' +:+ x) ∧ t = s).

(** [t] is [s] without the prefix [p], or [s] itself when [s] does not start
    with [p]. *)
Definition without_prefix (s p t : string) : Prop :=
  s = p +:+ t ∨ ((¬ ∃ t', s = p +:+ t') ∧ t = s).

(** ** What [ToRequestData] computes *)

(** The headers of an inbound request as the store has them; a [nil] header
    map reads as the empty map. *)
Definition inbound_headers (σ : store) (req : InboundRequest)
  : option (gmap string (list string)) :=
  match in_Header req with
  | None => Some ∅
  | Some l => maps σ !! l
  end.

(** The store [σ] with the struct [o] at [data] and the map [m] at [l]. *)
Definition with_capture (σ : store) (data : loc) (o : RequestDataObj)
    (l : loc) (m : gmap string (list string)) : store :=
  set_obj data o (set_map l m σ).

(** The record that [ToRequestData] captures at the time [now] from a request
    with the URL [u], the body [body] and the headers [h]. *)
Definition captured_record (now : Z) (req : InboundRequest) (u : url.URL)
    (body : string) (h : gmap string (list string)) : RequestData :=
  {| Date := goint.quo now toMs; Header := h;
     ContentLength := in_ContentLength req; Body := body;
     Method := in_Method req; Path := url.Path u; Query := url.RawQuery u |}.

(** ** Header maps as [net/http] keeps them *)

(** One step of the canonicalisation loop on the byte [c]. *)
Definition canon_byte (upper : bool) (c : ascii) : ascii :=
  if upper && textproto.is_lower c
  then ascii_of_N (N_of_ascii c - textproto.toLower)
  else if negb upper && textproto.is_upper c
       then ascii_of_N (N_of_ascii c + textproto.toLower)
       else c.

(** Every name of the map is canonical and has at least one value. *)
Definition well_formed_headers (m : gmap string (list string)) : Prop :=
  ∀ name vals, m !! name = Some vals →
    textproto.CanonicalMIMEHeaderKey name = name ∧ vals ≠ [].

(** ** The counters of the statistics *)

(** The sum of a count over the snapshots. *)
Definition total_of (f : BasketInfo.t → Z) (l : list BasketInfo.t) : Z :=
  foldr (λ b acc, f b + acc) 0 l.

(** The greatest value of a count over the snapshots, 0 when there are
    none. *)
Definition greatest (f : BasketInfo.t → Z) (l : list BasketInfo.t) : Z :=
  foldr (λ b acc, Z.max (f b) acc) 0 l.

(** The number of snapshots of baskets that never received a request. *)
Definition empty_baskets (l : list BasketInfo.t) : Z :=
  Z.of_nat (length (filter (λ b, BasketInfo.RequestsTotalCount b = 0) l)).

(** The counts of the snapshots are not negative. *)
Definition counts_ok (l : list BasketInfo.t) : Prop :=
  Forall (λ b, 0 ≤ BasketInfo.RequestsCount b ∧ 0 ≤ BasketInfo.RequestsTotalCount b) l.

(** ** What a script sees and prints *)

(** The Starlark list of the values of a header. *)
Definition star_values (vals : list string) : starlark.Value :=
  starlark.List (starlark.Str <$> vals).




(** What a script's [print] calls leave in the buffer: each message
    followed by a newline. *)
Definition printed_lines (printed : list string) : string :=
  foldr (λ msg out, msg +:+ String "010" "" +:+ out) "" printed.

(** ** Data of the examples *)

(** The range order of the examples. *)
Definition listed_order : MapRange :=
  {| range_of := map_to_list; range_of_perm := λ m, reflexivity _ |}.


Definition http_url (host path query : string) : url.URL :=
  {| url.Scheme := "http"; url.Opaque := ""; url.User := None; url.Host := host;
     url.Path := path; url.RawPath := ""; url.ForceQuery := false;
     url.RawQuery := query; url.Fragment := ""; url.RawFragment := "" |}.

(** The library on the URLs of the scenarios of the specification: what it
    returns for these, and an error for every other text. *)
Definition scenario_lib : GoLib := {|
  url_ParseRequestURI := λ s,
    if bool_decide (s = "http://up/x/") then inl (http_url "up" "/x/" "")
    else if bool_decide (s = "http://127.0.0.1:1") then inl (http_url "127.0.0.1:1" "" "")
    else inr ("parse " +:+ s +:+ ": invalid URI for request");
  url_Parse := λ s,
    if bool_decide (s = "http://up/x/y/z?k=1") then inl (http_url "up" "/x/y/z" "k=1")
    else if bool_decide (s = "http://127.0.0.1:1") then inl (http_url "127.0.0.1:1" "" "")
    else inr ("parse " +:+ s +:+ ": unknown URL");
  URL_String := λ u,
    "http://" +:+ url.Host u +:+ url.Path u
    +:+ (if bool_decide (url.RawQuery u = "") then "" else "?" +:+ url.RawQuery u);
  strconv_Quote := λ s, String "034" (s +:+ String "034" "");
  removeEmptyPort := λ host, host
|}.

(** The library on a forward URL that has a query. *)
Definition query_lib : GoLib := {|
  url_ParseRequestURI := λ s,
    if bool_decide (s = "http://up/x?a=1") then inl (http_url "up" "/x" "a=1")
    else inr ("parse " +:+ s +:+ ": invalid URI for request");
  url_Parse := λ s,
    if bool_decide (s = "http://up/x?a=1&k=1") then inl (http_url "up" "/x" "a=1&k=1")
    else inr ("parse " +:+ s +:+ ": unknown URL");
  URL_String := URL_String scenario_lib;
  strconv_Quote := strconv_Quote scenario_lib;
  removeEmptyPort := removeEmptyPort scenario_lib
|}.

(** A store with one captured request at location 1, its headers at
    location 2. *)
Definition captured_store (method path query body : string)
    (headers : gmap string (list string)) : store :=
  {| objs := {[ 1%positive :=
                {| obj_Date := 1700000000000; obj_Header := Some 2%positive;
                   obj_ContentLength := strings.len body; obj_Body := body;
                   obj_Method := method; obj_Path := path; obj_Query := query |} ]};
     maps := {[ 2%positive := headers ]};
     logs := [];
     wire := [] |}.

Definition captured (method path query body : string)
    (headers : gmap string (list string)) : RequestData :=
  {| Date := 1700000000000; Header := headers;
     ContentLength := strings.len body; Body := body;
     Method := method; Path := path; Query := query |}.

(** A client that cannot connect. *)
Definition refusing_client : Client :=
  λ _, (None, Some "dial tcp 127.0.0.1:1: connect: connection refused").

(** A client that answers 200. *)
Definition ok_client : Client :=
  λ _, (Some {| http.Response.StatusCode := 200;
                http.Response.Header := ∅;
                http.Response.Body := "ok" |}, None).

(** A snapshot of a basket that holds all the requests it ever received. *)
Definition snapshot (name : string) (total date : Z) : BasketInfo.t :=
  {| BasketInfo.Name := name;
     BasketInfo.RequestsCount := total;
     BasketInfo.RequestsTotalCount := total;
     BasketInfo.LastRequestDate := date |}.

(** The capacity limit of [make([]*BasketInfo, 0, size)] on linux/amd64:
    [maxAlloc] is [2^48] bytes and a pointer takes 8. *)
Definition amd64_max_slice_cap : Z := 2 ^ 45.

(** The configuration of the forwarding examples. *)
Definition expanding_config : BasketConfig :=
  {| ForwardURL := "http://up/x/"; ProxyResponse := false; InsecureTLS := false;
     ExpandPath := true; Capacity := 200 |}.

(** The headers of the forwarding examples. *)
Definition browser_headers : gmap string (list string) :=
  {[ "Accept" := ["text/html"; "*/*"]; "Connection" := ["keep-alive"] ]}.

(** An inbound request for the basket b1 whose headers are at location 2. *)
Definition inbound_get : InboundRequest :=
  {| in_Method := "GET"; in_URL := Some (http_url "" "/b1/y/z" "k=1");
     in_Header := Some 2%positive; in_ContentLength := 0; in_Body := Some "" |}.

(** A store that holds the headers of the inbound request only. *)
Definition inbound_store : store :=
  {| objs := ∅; maps := {[ 2%positive := browser_headers ]}; logs := []; wire := [] |}.

(** An interpreter whose script prints two lines. *)
Definition printing_interpreter : Interpreter := λ _ _ _ _, (["a"; "b"], None).

(** * Properties *)

(** ** Strings *)

Module strings_facts.
Import strings.

Lemma app_cons c (s t : string) : String c s +:+ t = String c (s +:+ t).
Proof. reflexivity. Qed.

Lemma app_nil_l (s : string) : "" +:+ s = s.
Proof. reflexivity. Qed.

Lemma app_nil_r (s : string) : s +:+ "" = s.
Proof. induction s as [|c s IH]; [done|]. by rewrite app_cons, IH. Qed.

Lemma app_assoc (s t u : string) : (s +:+ t) +:+ u = s +:+ t +:+ u.
Proof. induction s as [|c s IH]; [done|]. by rewrite !app_cons, IH. Qed.

Lemma length_app (s t : string) :
  String.length (s +:+ t) = (String.length s + String.length t)%nat.
Proof. induction s as [|c s IH]; [done|]. rewrite app_cons. simpl. by rewrite IH. Qed.

Lemma take_app_length (p t : string) : take (String.length p) (p +:+ t) = p.
Proof. induction p as [|c p IH]; [done|]. rewrite app_cons. simpl. by rewrite IH. Qed.

Lemma drop_app_length (p t : string) : drop (String.length p) (p +:+ t) = t.
Proof. induction p as [|c p IH]; [done|]. rewrite app_cons. simpl. by rewrite IH. Qed.

Lemma take_drop (n : nat) (s : string) : take n s +:+ drop n s = s.
Proof.
  revert s. induction n as [|n IH]; intros [|c s]; try done.
  simpl. by rewrite app_cons, IH.
Qed.

Lemma length_take (n : nat) (s : string) :
  (n ≤ String.length s)%nat → String.length (take n s) = n.
Proof.
  revert s. induction n as [|n IH]; intros [|c s] Hn; simpl in *; try done; try lia.
  rewrite IH; lia.
Qed.

Lemma HasPrefix_spec (s p : string) :
  HasPrefix s p = true ↔ ∃ t, s = p +:+ t.
Proof.
  unfold HasPrefix. rewrite andb_true_iff, Nat.leb_le, bool_decide_eq_true. split.
  - intros [_ Hp]. exists (drop (String.length p) s).
    rewrite <- (take_drop (String.length p) s) at 1. by rewrite Hp.
  - intros [t ->]. rewrite length_app, take_app_length. split; [lia | done].
Qed.

Lemma HasSuffix_spec (s x : string) :
  HasSuffix s x = true ↔ ∃ t, s = t +:+ x.
Proof.
  unfold HasSuffix. rewrite andb_true_iff, Nat.leb_le, bool_decide_eq_true. split.
  - intros [_ Hx]. exists (take (String.length s - String.length x) s).
    rewrite <- (take_drop (String.length s - String.length x) s) at 1.
    by rewrite Hx.
  - intros [t ->]. rewrite length_app.
    replace (String.length t + String.length x - String.length x)%nat
      with (String.length t) by lia.
    rewrite drop_app_length. split; [lia | done].
Qed.

Lemma TrimPrefix_app (p t : string) : TrimPrefix (p +:+ t) p = t.
Proof.
  unfold TrimPrefix.
  assert (HasPrefix (p +:+ t) p = true) as -> by (apply HasPrefix_spec; eauto).
  apply drop_app_length.
Qed.

Lemma TrimPrefix_other (s p : string) :
  (¬ ∃ t, s = p +:+ t) → TrimPrefix s p = s.
Proof.
  intros Hno. unfold TrimPrefix.
  destruct (HasPrefix s p) eqn:E; [|done].
  apply HasPrefix_spec in E. contradiction.
Qed.

Lemma TrimSuffix_app (t x : string) : TrimSuffix (t +:+ x) x = t.
Proof.
  unfold TrimSuffix.
  assert (HasSuffix (t +:+ x) x = true) as -> by (apply HasSuffix_spec; eauto).
  rewrite length_app.
  replace (String.length t + String.length x - String.length x)%nat
    with (String.length t) by lia.
  apply take_app_length.
Qed.

Lemma TrimSuffix_other (s x : string) :
  (¬ ∃ t, s = t +:+ x) → TrimSuffix s x = s.
Proof.
  intros Hno. unfold TrimSuffix.
  destruct (HasSuffix s x) eqn:E; [|done].
  apply HasSuffix_spec in E. contradiction.
Qed.

Lemma Contains_unfold (s q : string) :
  Contains s q =
    HasPrefix s q
    || match s with EmptyString => false | String _ s' => Contains s' q end.
Proof. by destruct s. Qed.

(** [strings.Contains] decides occurrence as a substring. *)
Lemma Contains_spec (s q : string) : Contains s q = true ↔ occurs_in q s.
Proof.
  unfold occurs_in. induction s as [|c s IH].
  - rewrite Contains_unfold, orb_false_r, HasPrefix_spec. split.
    + intros [t Ht]. by exists "", t.
    + intros ([|c a] & b & Hab); [eauto | done].
  - rewrite Contains_unfold, orb_true_iff, HasPrefix_spec, IH. split.
    + intros [[t Ht] | (a & b & Hab)].
      * by exists "", t.
      * exists (String c a), b. by rewrite app_cons, Hab.
    + intros ([|c' a] & b & Hab).
      * left. eauto.
      * right. rewrite app_cons in Hab. injection Hab as _ ->. eauto.
Qed.

Lemma occurs_in_empty (s : string) : occurs_in "" s.
Proof. by exists "", s. Qed.

Lemma Contains_empty (s : string) : Contains s "" = true.
Proof. apply Contains_spec, occurs_in_empty. Qed.

End strings_facts.

(** ** The search predicate *)

Section Matches_facts.
Context (order : MapRange).

Lemma match_vals_spec (q : string) (vals : list string) :
  match_vals q vals = true ↔ ∃ val, val ∈ vals ∧ occurs_in q val.
Proof.
  induction vals as [|v vals IH]; simpl.
  - split; [done | intros (? & []%elem_of_nil & _)].
  - destruct (strings.Contains v q) eqn:E.
    + split; [|done]. intros _. exists v. split; [left|].
      by apply strings_facts.Contains_spec.
    + rewrite IH. split.
      * intros (val & Hin & Hq). exists val. split; [by right | done].
      * intros (val & [-> | Hin]%elem_of_cons & Hq); [|eauto].
        apply strings_facts.Contains_spec in Hq. congruence.
Qed.

Lemma match_headers_spec (q : string) (entries : list (string * list string)) :
  match_headers q entries = true
  ↔ ∃ name vals val, (name, vals) ∈ entries ∧ val ∈ vals ∧ occurs_in q val.
Proof.
  induction entries as [|[k vs] entries IH]; simpl.
  - split; [done | intros (? & ? & ? & []%elem_of_nil & _)].
  - destruct (match_vals q vs) eqn:E.
    + split; [|done]. intros _.
      apply match_vals_spec in E as (val & Hin & Hq).
      exists k, vs, val. split; [left | done].
    + rewrite IH. split.
      * intros (name & vals & val & Hin & Hv). exists name, vals, val.
        split; [by right | done].
      * intros (name & vals & val & Hin & Hv & Hq).
        apply elem_of_cons in Hin as [[= -> ->] | Hin]; [|by eauto 6].
        assert (match_vals q vs = true) by (apply match_vals_spec; eauto).
        congruence.
Qed.

(** The header loop of [Matches] does not depend on the order in which
    the map is visited. *)
Lemma match_headers_range (q : string) (h : gmap string (list string)) :
  match_headers q (range_of order h) = true
  ↔ some_header_value h (occurs_in q).
Proof.
  rewrite match_headers_spec. unfold some_header_value.
  split; intros (name & vals & val & Hin & Hv); exists name, vals, val;
    (split; [|done]).
  - rewrite (range_of_perm order h) in Hin. by apply elem_of_map_to_list in Hin.
  - rewrite (range_of_perm order h). by apply elem_of_map_to_list.
Qed.

Lemma Matches_body (r : RequestData) (q : string) :
  Matches order r q "body" = strings.Contains (Body r) q.
Proof. unfold Matches. simpl. by destruct (strings.Contains (Body r) q). Qed.

Lemma Matches_query (r : RequestData) (q : string) :
  Matches order r q "query" = strings.Contains (Query r) q.
Proof. unfold Matches. simpl. by destruct (strings.Contains (Query r) q). Qed.

Lemma Matches_headers (r : RequestData) (q : string) :
  Matches order r q "headers" = match_headers q (range_of order (Header r)).
Proof. done. Qed.

Lemma Matches_default (r : RequestData) (q s : string) :
  s ≠ "body" → s ≠ "query" → s ≠ "headers" →
  Matches order r q s
  = strings.Contains (Body r) q || strings.Contains (Query r) q
    || match_headers q (range_of order (Header r)).
Proof.
  intros Hb Hq Hh. unfold Matches.
  rewrite !bool_decide_eq_false_2 by done. simpl.
  by destruct (strings.Contains (Body r) q), (strings.Contains (Query r) q).
Qed.

(** C2. [Matches] returns true iff the query occurs (byte for byte, so case
    matters) in a selected field: the body for scope "body", the raw query
    for "query", some single header value for "headers", and any of these
    for every other scope, the empty one included. *)
Theorem Matches_iff_occurs (r : RequestData) (q s : string) :
  (s = "body" → (Matches order r q s = true ↔ occurs_in q (Body r)))
  ∧ (s = "query" → (Matches order r q s = true ↔ occurs_in q (Query r)))
  ∧ (s = "headers" →
       (Matches order r q s = true ↔ some_header_value (Header r) (occurs_in q)))
  ∧ (s ≠ "body" → s ≠ "query" → s ≠ "headers" →
       (Matches order r q s = true
        ↔ occurs_in q (Body r) ∨ occurs_in q (Query r)
          ∨ some_header_value (Header r) (occurs_in q))).
Proof.
  split; [|split; [|split]].
  - intros ->. by rewrite Matches_body, strings_facts.Contains_spec.
  - intros ->. by rewrite Matches_query, strings_facts.Contains_spec.
  - intros ->. by rewrite Matches_headers, match_headers_range.
  - intros Hb Hq Hh. rewrite Matches_default by done.
    rewrite !orb_true_iff, !strings_facts.Contains_spec, match_headers_range.
    tauto.
Qed.

(** C9. With the empty query [Matches] returns true for the scopes "body"
    and "query" and for every scope other than "headers"; for the scope
    "headers" it returns true iff the record has at least one header value,
    and so false for a record without headers. *)
Theorem Matches_empty_query (r : RequestData) :
  (∀ s, s ≠ "headers" → Matches order r "" s = true)
  ∧ (Matches order r "" "headers" = true
     ↔ ∃ name vals val, Header r !! name = Some vals ∧ val ∈ vals)
  ∧ (Header r = ∅ → Matches order r "" "headers" = false).
Proof.
  split; [|split].
  - intros s Hh.
    destruct (decide (s = "body")) as [->|Hb].
    { by rewrite Matches_body, strings_facts.Contains_empty. }
    destruct (decide (s = "query")) as [->|Hq].
    { by rewrite Matches_query, strings_facts.Contains_empty. }
    by rewrite Matches_default, strings_facts.Contains_empty.
  - rewrite Matches_headers, match_headers_range. unfold some_header_value.
    split.
    + intros (name & vals & val & ? & ? & _). eauto.
    + intros (name & vals & val & ? & ?). exists name, vals, val.
      eauto using strings_facts.occurs_in_empty.
  - intros Hempty. apply not_true_is_false.
    rewrite Matches_headers, match_headers_range, Hempty.
    intros (name & vals & val & Hl & _). by rewrite lookup_empty in Hl.
Qed.

End Matches_facts.

(** The sixth scenario of the specification: "alpha" in a body, in a query
    and in a header value. *)
Example Matches_scenario_6 :
  let R1 := captured "POST" "/b1" "" "alpha" ∅ in
  let R2 := captured "GET" "/b1" "alpha" "" ∅ in
  let R3 := captured "GET" "/b1" "" "" {[ "X" := ["alpha"] ]} in
  let found scope :=
    filter (λ R, Matches listed_order R "alpha" scope = true) [R1; R2; R3] in
  found "body" = [R1] ∧ found "query" = [R2] ∧ found "headers" = [R3]
  ∧ found "" = [R1; R2; R3].
Proof. by vm_compute. Qed.

(** The case of the letters matters. *)
Example Matches_case :
  Matches listed_order (captured "POST" "/b1" "" "alpha" ∅) "Alpha" "body" = false.
Proof. by vm_compute. Qed.

(** ** Go integers *)

Module goint_facts.
Import goint.

Lemma wrap64_id (z : Z) : in_range z → wrap64 z = z.
Proof.
  unfold in_range, min_int, max_int, wrap64. intros Hz.
  rewrite Z.mod_small; lia.
Qed.

Lemma quot_range (a d : Z) : in_range a → 0 < d → in_range (Z.quot a d).
Proof.
  unfold in_range, min_int, max_int. intros Ha Hd.
  pose proof (Z.quot_rem' a d) as Hqr.
  destruct (Z_le_gt_dec 0 a) as [Hpos|Hneg].
  - pose proof (Z.rem_bound_pos a d Hpos Hd). nia.
  - pose proof (Z.rem_bound_pos (- a) d ltac:(lia) Hd) as Hr.
    rewrite Z.rem_opp_l' in Hr. nia.
Qed.

(** [Z.quot] truncates towards zero: the magnitude of the quotient is the
    quotient of the magnitudes, rounded down, and the sign is kept. *)
Lemma quot_truncates (a d : Z) :
  0 < d →
  Z.abs (Z.quot a d) = Z.abs a / d
  ∧ (0 ≤ a → 0 ≤ Z.quot a d) ∧ (a ≤ 0 → Z.quot a d ≤ 0).
Proof.
  intros Hd. destruct (Z_le_gt_dec 0 a) as [Hpos|Hneg].
  - rewrite Z.quot_div_nonneg by lia.
    pose proof (Z.div_pos a d Hpos Hd).
    rewrite !Z.abs_eq by lia. split; [done|]. split; [done|].
    intros. assert (a = 0) as -> by lia. by rewrite Z.div_0_l by lia.
  - assert (∃ a', a = - a' ∧ 0 < a') as (a' & -> & Ha') by (exists (- a); lia).
    rewrite Z.quot_opp_l by lia. rewrite Z.quot_div_nonneg by lia.
    pose proof (Z.div_pos a' d ltac:(lia) Hd).
    rewrite !Z.abs_opp, !Z.abs_eq by lia. split; [done|]. split; lia.
Qed.
End goint_facts.

(** ** The slice operations of [collectConditionally] *)

Section copy_facts.
Context {A : Type}.
Implicit Types P Q : list A.

(** [copy(col[i+1:], col[i:])] moves the elements from [i] on one place
    up and loses the last one. *)
Lemma copy_within_shift P Q (b : A) :
  copy_within (P ++ b :: Q) (length P + 1) (length P)
  = P ++ b :: take (length Q) (b :: Q).
Proof.
  unfold copy_within.
  rewrite length_app. simpl.
  replace (Nat.min (length P + S (length Q) - (length P + 1))
             (length P + S (length Q) - length P))%nat with (length Q) by lia.
  rewrite take_app_add, drop_app_length. simpl. rewrite take_0.
  rewrite drop_ge by (rewrite length_app; simpl; lia).
  by rewrite app_nil_r, <- app_assoc.
Qed.

Lemma insert_shift P Q (b x : A) :
  <[length P := x]> (copy_within (P ++ b :: Q) (length P + 1) (length P))
  = take (length (P ++ b :: Q)) (P ++ x :: b :: Q).
Proof.
  rewrite copy_within_shift.
  replace (length P) with (length P + 0)%nat at 1 by lia.
  rewrite insert_app_r. simpl.
  rewrite length_app. simpl.
  rewrite take_app_add. simpl. done.
Qed.

(** After [append(col, nil)] nothing is lost, and the [nil] is
    overwritten. *)
Lemma insert_shift_grown P Q (b x hole : A) :
  <[length P := x]> (copy_within ((P ++ b :: Q) ++ [hole]) (length P + 1) (length P))
  = P ++ x :: b :: Q.
Proof.
  rewrite <- app_assoc. simpl. rewrite insert_shift.
  rewrite length_app. simpl. rewrite take_app_add. simpl.
  rewrite length_app. simpl.
  replace (length Q + 1)%nat with (S (length Q)) by lia. simpl.
  by rewrite take_app_length.
Qed.
End copy_facts.

(** ** Insertion into a top list *)

Section insert_desc_facts.
Context {A : Type} (greater : A → A → bool).

Lemma length_insert_desc (x : A) l : length (insert_desc greater x l) = S (length l).
Proof.
  induction l as [|b l IH]; simpl; [done|].
  destruct (greater x b); simpl; by rewrite ?IH.
Qed.

(** Inserting into a truncated list and truncating again is inserting
    and truncating once. *)
Lemma take_insert_desc_take (k : nat) (x : A) l :
  take k (insert_desc greater x (take k l)) = take k (insert_desc greater x l).
Proof.
  revert l. induction k as [|k IH]; intros l; [done|].
  destruct l as [|b l]; [done|]. simpl.
  destruct (greater x b); simpl.
  - f_equal. destruct k; [done|]. simpl. f_equal. rewrite take_take. f_equal. lia.
  - by rewrite IH.
Qed.

Lemma sort_desc_snoc l (x : A) :
  sort_desc greater (l ++ [x]) = insert_desc greater x (sort_desc greater l).
Proof. unfold sort_desc. by rewrite foldl_snoc. Qed.

Lemma top_k_snoc k l (x : A) :
  top_k greater k (l ++ [x]) = take k (insert_desc greater x (top_k greater k l)).
Proof. unfold top_k. by rewrite sort_desc_snoc, take_insert_desc_take. Qed.

Lemma length_sort_desc (l : list A) : length (sort_desc greater l) = length l.
Proof.
  induction l as [|x l IH] using rev_ind; [done|].
  rewrite sort_desc_snoc, length_insert_desc, IH, length_app. simpl. lia.
Qed.

Lemma insert_desc_perm (x : A) l : insert_desc greater x l ≡ₚ x :: l.
Proof.
  induction l as [|b l IH]; simpl; [done|].
  destruct (greater x b); [done|]. rewrite IH. apply Permutation_swap.
Qed.

Lemma sort_desc_perm (l : list A) : sort_desc greater l ≡ₚ l.
Proof.
  induction l as [|x l IH] using rev_ind; [done|].
  rewrite sort_desc_snoc, insert_desc_perm, IH. by rewrite Permutation_cons_append.
Qed.
End insert_desc_facts.

(** ** [collectConditionally] inserts into the top list *)

Section collect_facts.
Context (cap : Z) (x : BasketInfo.t) (K : Z)
        (greater : BasketInfo.t → BasketInfo.t → bool).

Lemma insert_here_spec (pre post : list BasketInfo.t) (b : BasketInfo.t) :
  insert_here x K (Some <$> (pre ++ b :: post)) (length pre)
  = Some <$> take (grown K (length (pre ++ b :: post))) (pre ++ x :: b :: post).
Proof.
  unfold insert_here, grown. rewrite length_fmap.
  rewrite <- (length_fmap Some pre) at 1 2 3.
  rewrite fmap_take, !fmap_app, !fmap_cons.
  destruct (Z.of_nat (length (pre ++ b :: post)) <? K).
  - rewrite insert_shift_grown. rewrite take_ge; [done|].
    rewrite !length_app. simpl. rewrite !length_fmap. lia.
  - rewrite insert_shift. f_equal.
    rewrite !length_app. simpl. by rewrite !length_fmap.
Qed.

(** The loop over a slice without [nil] pointers, followed by the rest of
    the function. *)
Lemma range_col_spec (pre rest : list BasketInfo.t) :
  result_bind
    (range_col x K greater (Some <$> (pre ++ rest)) (length pre) (Some <$> rest))
    (λ returned,
       match returned with
       | Some col' => Ok (Some col')
       | None =>
           if Z.of_nat (length (Some <$> (pre ++ rest))) <? K
           then Ok (Some ((Some <$> (pre ++ rest)) ++ [Some x]))
           else Ok (Some (Some <$> (pre ++ rest)))
       end)
  = Ok (Some (Some <$> take (grown K (length (pre ++ rest)))
                         (pre ++ insert_desc greater x rest))).
Proof.
  revert pre. induction rest as [|b rest IH]; intros pre; simpl.
  - unfold grown. rewrite length_fmap, app_nil_r.
    destruct (Z.of_nat (length pre) <? K).
    + rewrite take_ge by (rewrite length_app; simpl; lia).
      by rewrite fmap_app.
    + by rewrite take_app_length.
  - destruct (greater x b) eqn:E; simpl.
    + by rewrite insert_here_spec.
    + specialize (IH (pre ++ [b])).
      rewrite <- !app_assoc in IH. simpl in IH.
      rewrite length_app in IH. simpl in IH.
      replace (length pre + 1)%nat with (S (length pre)) in IH by lia.
      exact IH.
Qed.

Lemma collectConditionally_spec (l : list BasketInfo.t) :
  collectConditionally cap x K greater (Some (Some <$> l))
  = Ok (Some (Some <$> take (grown K (length l)) (insert_desc greater x l))).
Proof. unfold collectConditionally. apply (range_col_spec []). Qed.

Lemma collectConditionally_top (l : list BasketInfo.t) :
  (length l ≤ Z.to_nat K)%nat →
  collectConditionally cap x K greater (Some (Some <$> l))
  = Ok (Some (Some <$> take (Z.to_nat K) (insert_desc greater x l))).
Proof.
  intros Hl. rewrite collectConditionally_spec. do 3 f_equal.
  unfold grown. destruct (Z.of_nat (length l) <? K) eqn:E.
  - apply Z.ltb_lt in E.
    rewrite !take_ge; [done | rewrite length_insert_desc; lia..].
  - apply Z.ltb_ge in E. f_equal. lia.
Qed.

(** The first snapshot is stored whatever the bound, when [make] accepts
    the bound as a capacity. *)
Lemma collectConditionally_nil :
  0 ≤ K ≤ cap →
  collectConditionally cap x K greater None = Ok (Some [Some x]).
Proof.
  intros HK. unfold collectConditionally.
  assert ((K <? 0) = false) as -> by lia.
  by assert ((cap <? K) = false) as -> by lia.
Qed.

Lemma collectConditionally_clean (slice : option (list (option BasketInfo.t))) :
  0 ≤ K ≤ cap → clean slice →
  ∃ t, collectConditionally cap x K greater slice = Ok t ∧ clean t.
Proof.
  intros HK Hc. destruct slice as [col|].
  - destruct (Hc col eq_refl) as [L ->].
    rewrite collectConditionally_spec. eexists. split; [done|].
    intros ? [= <-]. eauto.
  - rewrite collectConditionally_nil by done. eexists. split; [done|].
    intros ? [= <-]. by exists [x].
Qed.
End collect_facts.

(** ** The top list of a key *)

Section keyed.
Context {A : Type} (key : A → Z).

Lemma insert_desc_sorted (x : A) l :
  StronglySorted (desc key) l →
  StronglySorted (desc key) (insert_desc (by_key key) x l).
Proof.
  induction 1 as [|b l Hl IH Hb]; simpl.
  - repeat constructor.
  - unfold by_key at 1. destruct (key x >? key b) eqn:E.
    + constructor; [by constructor|].
      constructor; [unfold desc; lia|].
      eapply Forall_impl; [exact Hb|]. unfold desc. intros; lia.
    + constructor; [done|].
      rewrite insert_desc_perm. constructor; [unfold desc; lia | done].
Qed.

Lemma sort_desc_sorted (l : list A) :
  StronglySorted (desc key) (sort_desc (by_key key) l).
Proof.
  induction l as [|x l IH] using rev_ind; [constructor|].
  rewrite sort_desc_snoc. by apply insert_desc_sorted.
Qed.

Lemma StronglySorted_take (R : relation A) (k : nat) l :
  StronglySorted R l → StronglySorted R (take k l).
Proof.
  intros Hl. rewrite <- (take_drop k l) in Hl.
  by apply StronglySorted_app_1_l in Hl.
Qed.

Lemma filter_none (P : A → Prop) `{∀ a, Decision (P a)} l :
  Forall (λ a, ¬ P a) l → filter P l = [].
Proof.
  induction 1 as [|a l Ha _ IH]; [done|]. by rewrite filter_cons_False.
Qed.

(** An element is inserted behind the elements of the same key. *)
Lemma filter_insert_desc (v : Z) (x : A) l :
  StronglySorted (desc key) l →
  filter (λ a, key a = v) (insert_desc (by_key key) x l)
  = filter (λ a, key a = v) l ++ (if decide (key x = v) then [x] else []).
Proof.
  induction 1 as [|b l Hl IH Hb]; simpl.
  - rewrite filter_cons, filter_nil. by destruct (decide (key x = v)).
  - unfold by_key at 1. destruct (key x >? key b) eqn:E.
    + rewrite (filter_cons _ x). destruct (decide (key x = v)) as [Hx|Hx].
      * rewrite (filter_none (λ a, key a = v) (b :: l)); [done|].
        constructor; [lia|].
        eapply Forall_impl; [exact Hb|]. unfold desc. intros; lia.
      * by rewrite app_nil_r.
    + rewrite !(filter_cons _ b), IH.
      by destruct (decide (key b = v)).
Qed.

(** The sort is stable. *)
Lemma sort_desc_stable (v : Z) (l : list A) :
  filter (λ a, key a = v) (sort_desc (by_key key) l) = filter (λ a, key a = v) l.
Proof.
  induction l as [|x l IH] using rev_ind; [done|].
  rewrite sort_desc_snoc, filter_insert_desc by apply sort_desc_sorted.
  rewrite IH, filter_app, filter_cons, filter_nil.
  by destruct (decide (key x = v)).
Qed.

Lemma filter_take_prefix (P : A → Prop) `{∀ a, Decision (P a)} (k : nat) l :
  filter P (take k l) `prefix_of` filter P l.
Proof.
  rewrite <- (take_drop k l) at 2. rewrite filter_app. by apply prefix_app_r.
Qed.

Lemma top_k_length (k : nat) l :
  length (top_k (by_key key) k l) = Nat.min k (length l).
Proof. unfold top_k. by rewrite length_take, length_sort_desc. Qed.

Lemma top_k_sorted (k : nat) l : StronglySorted (desc key) (top_k (by_key key) k l).
Proof. apply StronglySorted_take, sort_desc_sorted. Qed.

Lemma top_k_submseteq (k : nat) l : top_k (by_key key) k l ⊆+ l.
Proof.
  unfold top_k. etrans; [apply submseteq_take|].
  apply Permutation_submseteq, sort_desc_perm.
Qed.

Lemma top_k_stable (k : nat) (v : Z) l :
  filter (λ a, key a = v) (top_k (by_key key) k l)
    `prefix_of` filter (λ a, key a = v) l.
Proof.
  rewrite <- (sort_desc_stable v l). apply filter_take_prefix.
Qed.

Lemma top_k_greatest (k : nat) l :
  ∃ dropped, top_k (by_key key) k l ++ dropped ≡ₚ l
    ∧ ∀ t d, t ∈ top_k (by_key key) k l → d ∈ dropped → key d ≤ key t.
Proof.
  exists (drop k (sort_desc (by_key key) l)). unfold top_k. split.
  - rewrite take_drop. apply sort_desc_perm.
  - intros t d Ht Hd.
    pose proof (sort_desc_sorted l) as Hs.
    rewrite <- (take_drop k (sort_desc (by_key key) l)) in Hs.
    by apply (StronglySorted_app_1_elem_of _ _ _ t d) in Hs.
Qed.
End keyed.

(** ** [Collect] and [UpdateAvarage] *)

Section Collect_facts.
Context (cap : Z).

Lemma Collect_unfold (s : DatabaseStats.t) (x : BasketInfo.t) (K : Z) t1 t2 :
  collectConditionally cap x K (by_key BasketInfo.RequestsTotalCount)
    (DatabaseStats.TopBasketsBySize s) = Ok t1 →
  collectConditionally cap x K (by_key BasketInfo.LastRequestDate)
    (DatabaseStats.TopBasketsByDate s) = Ok t2 →
  Collect cap s x K = Ok {|
    DatabaseStats.BasketsCount := goint.add (DatabaseStats.BasketsCount s) 1;
    DatabaseStats.EmptyBasketsCount :=
      if BasketInfo.RequestsTotalCount x =? 0
      then goint.add (DatabaseStats.EmptyBasketsCount s) 1
      else DatabaseStats.EmptyBasketsCount s;
    DatabaseStats.RequestsCount :=
      goint.add (DatabaseStats.RequestsCount s) (BasketInfo.RequestsCount x);
    DatabaseStats.RequestsTotalCount :=
      goint.add (DatabaseStats.RequestsTotalCount s) (BasketInfo.RequestsTotalCount x);
    DatabaseStats.MaxBasketSize :=
      if BasketInfo.RequestsTotalCount x >? DatabaseStats.MaxBasketSize s
      then BasketInfo.RequestsTotalCount x else DatabaseStats.MaxBasketSize s;
    DatabaseStats.AvgBasketSize := DatabaseStats.AvgBasketSize s;
    DatabaseStats.TopBasketsBySize := t1;
    DatabaseStats.TopBasketsByDate := t2 |}.
Proof. intros H1 H2. unfold Collect. unfold by_key in H1, H2. by rewrite H1, H2. Qed.

(** [Collect] does not panic on slices without [nil] pointers, and keeps
    them so. *)
Lemma Collect_clean (s : DatabaseStats.t) (x : BasketInfo.t) (K : Z) :
  0 ≤ K ≤ cap →
  clean (DatabaseStats.TopBasketsBySize s) → clean (DatabaseStats.TopBasketsByDate s) →
  ∃ s', Collect cap s x K = Ok s'
    ∧ clean (DatabaseStats.TopBasketsBySize s')
    ∧ clean (DatabaseStats.TopBasketsByDate s')
    ∧ DatabaseStats.BasketsCount s' = goint.add (DatabaseStats.BasketsCount s) 1
    ∧ DatabaseStats.EmptyBasketsCount s'
      = (if BasketInfo.RequestsTotalCount x =? 0
         then goint.add (DatabaseStats.EmptyBasketsCount s) 1
         else DatabaseStats.EmptyBasketsCount s)
    ∧ DatabaseStats.RequestsTotalCount s'
      = goint.add (DatabaseStats.RequestsTotalCount s) (BasketInfo.RequestsTotalCount x).
Proof.
  intros HK H1 H2.
  destruct (collectConditionally_clean cap x K (by_key BasketInfo.RequestsTotalCount)
    _ HK H1) as (t1 & Ht1 & Hc1).
  destruct (collectConditionally_clean cap x K (by_key BasketInfo.LastRequestDate)
    _ HK H2) as (t2 & Ht2 & Hc2).
  rewrite (Collect_unfold s x K t1 t2 Ht1 Ht2). eexists. split; [done|]. by simpl.
Qed.

Lemma UpdateAvarage_spec (s : DatabaseStats.t) :
  goint.in_range (DatabaseStats.RequestsTotalCount s) →
  goint.in_range (DatabaseStats.BasketsCount s - DatabaseStats.EmptyBasketsCount s) →
  ∃ s', UpdateAvarage s = Ok s'
    ∧ DatabaseStats.AvgBasketSize s'
      = if decide (0 < DatabaseStats.BasketsCount s - DatabaseStats.EmptyBasketsCount s)
        then Z.quot (DatabaseStats.RequestsTotalCount s)
               (DatabaseStats.BasketsCount s - DatabaseStats.EmptyBasketsCount s)
        else 0.
Proof.
  intros Hrtc Hd. unfold UpdateAvarage.
  destruct (DatabaseStats.BasketsCount s >? DatabaseStats.EmptyBasketsCount s) eqn:E.
  - apply Z.gtb_lt in E. rewrite decide_True by lia.
    unfold goint.sub, goint.quo. rewrite goint_facts.wrap64_id by done.
    assert ((DatabaseStats.BasketsCount s - DatabaseStats.EmptyBasketsCount s =? 0) = false)
      as -> by lia.
    eexists. split; [done|]. simpl.
    apply goint_facts.wrap64_id, goint_facts.quot_range; [done | lia].
  - rewrite decide_False by lia. eexists. split; done.
Qed.

(** The exact sum of two Go integers wraps into a Go integer. *)
Lemma add_in_range (a b : Z) : goint.in_range (goint.add a b).
Proof.
  unfold goint.in_range, goint.min_int, goint.max_int, goint.add, goint.wrap64.
  pose proof (Z.mod_pos_bound (a + b + 2 ^ 63) (2 ^ 64) ltac:(lia)). lia.
Qed.

(** The number of snapshots with an empty count. *)
Lemma collect_all_counters_from (K : Z) (l : list BasketInfo.t) (s : DatabaseStats.t) :
  0 ≤ K ≤ cap →
  clean (DatabaseStats.TopBasketsBySize s) → clean (DatabaseStats.TopBasketsByDate s) →
  0 ≤ DatabaseStats.EmptyBasketsCount s ≤ DatabaseStats.BasketsCount s →
  DatabaseStats.BasketsCount s + Z.of_nat (length l) ≤ goint.max_int →
  ∃ s', collect_all cap s l K = Ok s'
    ∧ DatabaseStats.BasketsCount s' = DatabaseStats.BasketsCount s + Z.of_nat (length l)
    ∧ DatabaseStats.EmptyBasketsCount s'
      = DatabaseStats.EmptyBasketsCount s
        + Z.of_nat (length (filter (λ b, BasketInfo.RequestsTotalCount b = 0) l))
    ∧ DatabaseStats.RequestsTotalCount s'
      = foldl (λ acc b, goint.add acc (BasketInfo.RequestsTotalCount b))
          (DatabaseStats.RequestsTotalCount s) l
    ∧ 0 ≤ DatabaseStats.EmptyBasketsCount s' ≤ DatabaseStats.BasketsCount s'.
Proof.
  intros HK. revert s. induction l as [|x l IH]; intros s Hc1 Hc2 Hcount Hmax.
  - exists s. simpl. repeat split; lia.
  - destruct (Collect_clean s x K HK Hc1 Hc2)
      as (s1 & E1 & Hs1 & Hd1 & Hbc1 & Hebc1 & Hrtc1).
    simpl in Hmax. unfold goint.max_int in Hmax.
    assert (DatabaseStats.BasketsCount s1 = DatabaseStats.BasketsCount s + 1) as Hbc1'.
    { rewrite Hbc1. apply goint_facts.wrap64_id.
      unfold goint.in_range, goint.min_int, goint.max_int. lia. }
    assert (DatabaseStats.EmptyBasketsCount s1
            = DatabaseStats.EmptyBasketsCount s
              + (if decide (BasketInfo.RequestsTotalCount x = 0) then 1 else 0))
      as Hebc1'.
    { rewrite Hebc1. destruct (decide (BasketInfo.RequestsTotalCount x = 0)) as [E|E].
      - rewrite E. simpl. apply goint_facts.wrap64_id.
        unfold goint.in_range, goint.min_int, goint.max_int. lia.
      - assert ((BasketInfo.RequestsTotalCount x =? 0) = false) as -> by lia. lia. }
    destruct (IH s1 Hs1 Hd1) as (s' & E' & Hbc' & Hebc' & Hrtc' & Hcount').
    { rewrite Hbc1', Hebc1'. destruct (decide _); lia. }
    { rewrite Hbc1'. unfold goint.max_int. lia. }
    exists s'. simpl. rewrite E1. simpl. split; [done|].
    split; [rewrite Hbc', Hbc1'; lia|].
    split; [|split; [by rewrite Hrtc', Hrtc1 | done]].
    rewrite Hebc', Hebc1', filter_cons.
    destruct (decide (BasketInfo.RequestsTotalCount x = 0)); simpl; lia.
Qed.

(** The counters of every state that [Collect] produces from the zero
    statistics: the counts are not negative and the sum is a Go integer. *)
Lemma collect_all_counters (K : Z) (l : list BasketInfo.t) :
  0 ≤ K ≤ cap →
  Z.of_nat (length l) ≤ goint.max_int →
  ∃ s, collect_all cap DatabaseStats.zero l K = Ok s
    ∧ DatabaseStats.BasketsCount s = Z.of_nat (length l)
    ∧ DatabaseStats.EmptyBasketsCount s
      = Z.of_nat (length (filter (λ b, BasketInfo.RequestsTotalCount b = 0) l))
    ∧ DatabaseStats.RequestsTotalCount s
      = foldl (λ acc b, goint.add acc (BasketInfo.RequestsTotalCount b)) 0 l
    ∧ goint.in_range (DatabaseStats.BasketsCount s)
    ∧ goint.in_range (DatabaseStats.RequestsTotalCount s)
    ∧ 0 ≤ DatabaseStats.EmptyBasketsCount s.
Proof.
  intros HK Hlen.
  destruct (collect_all_counters_from K l DatabaseStats.zero HK)
    as (s & Es & Hbc & Hebc & Hrtc & Hcount); [by intros ?..|simpl; lia|done|].
  simpl in Hbc, Hebc, Hrtc. exists s. split; [done|].
  split; [done|]. split; [done|]. split; [done|].
  split; [|split; [|lia]].
  - rewrite Hbc. unfold goint.in_range, goint.min_int, goint.max_int in *. lia.
  - rewrite Hrtc. destruct l as [|x l] using rev_ind; [by vm_compute|].
    rewrite foldl_snoc. apply add_in_range.
Qed.

Section bounded.
Context (K : Z).
Hypothesis HK : 1 ≤ K ≤ cap.

Lemma collectConditionally_slice (key : BasketInfo.t → Z) (x : BasketInfo.t) L :
  (length L ≤ Z.to_nat K)%nat →
  collectConditionally cap x K (by_key key) (slice_of L)
  = Ok (slice_of (take (Z.to_nat K) (insert_desc (by_key key) x L))).
Proof.
  intros HL. destruct L as [|b L].
  - unfold slice_of at 1. rewrite collectConditionally_nil by lia. simpl.
    destruct (Z.to_nat K) eqn:E; [lia|]. simpl. by rewrite take_nil.
  - unfold slice_of at 1. rewrite collectConditionally_top by done.
    destruct (take _ _) eqn:E; [|done].
    apply (f_equal length) in E.
    rewrite length_take, length_insert_desc in E. simpl in E. lia.
Qed.

Lemma Collect_tops (s : DatabaseStats.t) (x : BasketInfo.t)
    (seen : list BasketInfo.t) :
  DatabaseStats.TopBasketsBySize s
    = slice_of (top_k (by_key BasketInfo.RequestsTotalCount) (Z.to_nat K) seen) →
  DatabaseStats.TopBasketsByDate s
    = slice_of (top_k (by_key BasketInfo.LastRequestDate) (Z.to_nat K) seen) →
  ∃ s', Collect cap s x K = Ok s'
    ∧ DatabaseStats.TopBasketsBySize s'
      = slice_of (top_k (by_key BasketInfo.RequestsTotalCount) (Z.to_nat K)
                    (seen ++ [x]))
    ∧ DatabaseStats.TopBasketsByDate s'
      = slice_of (top_k (by_key BasketInfo.LastRequestDate) (Z.to_nat K)
                    (seen ++ [x])).
Proof.
  intros Hsize Hdate.
  erewrite Collect_unfold.
  - eexists. split; [done|]. simpl. split; reflexivity.
  - rewrite Hsize, collectConditionally_slice, <- top_k_snoc; [done|].
    rewrite top_k_length. lia.
  - rewrite Hdate, collectConditionally_slice, <- top_k_snoc; [done|].
    rewrite top_k_length. lia.
Qed.

Lemma collect_all_tops (l seen : list BasketInfo.t) (s : DatabaseStats.t) :
  DatabaseStats.TopBasketsBySize s
    = slice_of (top_k (by_key BasketInfo.RequestsTotalCount) (Z.to_nat K) seen) →
  DatabaseStats.TopBasketsByDate s
    = slice_of (top_k (by_key BasketInfo.LastRequestDate) (Z.to_nat K) seen) →
  ∃ s', collect_all cap s l K = Ok s'
    ∧ DatabaseStats.TopBasketsBySize s'
      = slice_of (top_k (by_key BasketInfo.RequestsTotalCount) (Z.to_nat K)
                    (seen ++ l))
    ∧ DatabaseStats.TopBasketsByDate s'
      = slice_of (top_k (by_key BasketInfo.LastRequestDate) (Z.to_nat K)
                    (seen ++ l)).
Proof.
  revert seen s. induction l as [|x l IH]; intros seen s Hsize Hdate; simpl.
  - rewrite app_nil_r. eauto.
  - destruct (Collect_tops s x seen Hsize Hdate) as (s1 & -> & Hsize1 & Hdate1).
    simpl. replace (seen ++ x :: l) with ((seen ++ [x]) ++ l)
      by (by rewrite <- app_assoc).
    by apply IH.
Qed.

Lemma slice_of_is_top (key : BasketInfo.t → Z) (l : list BasketInfo.t) :
  is_top key K l (slice_of (top_k (by_key key) (Z.to_nat K) l)).
Proof.
  exists (top_k (by_key key) (Z.to_nat K) l).
  split; [|split; [|split; [|split; [|split]]]].
  - by destruct (top_k (by_key key) (Z.to_nat K) l).
  - rewrite top_k_length. lia.
  - apply top_k_submseteq.
  - apply top_k_sorted.
  - intros v. apply top_k_stable.
  - apply top_k_greatest.
Qed.
End bounded.
End Collect_facts.

(** C3, as stated, fails for the bound 0: the first snapshot collected is
    stored without a look at the bound, so the list has one element where
    [min(K, n)] is 0. *)
Lemma Collect_top_lists_zero_bound :
  ∃ stats,
    collect_all amd64_max_slice_cap DatabaseStats.zero [snapshot "a" 1 1] 0 = Ok stats
    ∧ elems (DatabaseStats.TopBasketsBySize stats) = [Some (snapshot "a" 1 1)]
    ∧ ¬ is_top BasketInfo.RequestsTotalCount 0 [snapshot "a" 1 1]
          (DatabaseStats.TopBasketsBySize stats).
Proof.
  eexists. split; [by vm_compute|]. split; [done|].
  intros (top & Hel & Hlen & _). simpl in Hel.
  destruct top as [|? [|? ?]]; simplify_eq/=.
Qed.

(** A negative bound makes the first [Collect] panic in [make]. *)
Lemma Collect_negative_bound :
  collect_all amd64_max_slice_cap DatabaseStats.zero [snapshot "a" 1 1] (-1) = Panic.
Proof. by vm_compute. Qed.

(** C3 (amended). For every finite sequence of snapshots folded from the zero
    statistics through [Collect] with a bound [K >= 1] that [make] accepts as
    a capacity, the list [top_baskets_size] holds [min(K, n)] of the [n]
    snapshots, in non-increasing order of [requests_total_count]; snapshots
    of equal count appear in the order in which they were collected and the
    earlier ones are the ones retained; the same holds for
    [top_baskets_recent] with [last_request_date] as the key. *)
Theorem Collect_top_lists (cap K : Z) (l : list BasketInfo.t) :
  1 ≤ K ≤ cap →
  ∃ stats,
    collect_all cap DatabaseStats.zero l K = Ok stats
    ∧ is_top BasketInfo.RequestsTotalCount K l (DatabaseStats.TopBasketsBySize stats)
    ∧ is_top BasketInfo.LastRequestDate K l (DatabaseStats.TopBasketsByDate stats).
Proof.
  intros HK.
  destruct (collect_all_tops cap K HK l [] DatabaseStats.zero)
    as (s & Hs & Hsize & Hdate);
    [by unfold top_k, sort_desc; simpl; rewrite take_nil..|].
  exists s. split; [done|]. simpl in Hsize, Hdate. rewrite Hsize, Hdate.
  split; by apply (slice_of_is_top cap).
Qed.

Lemma Collect_top_lists_witness :
  1 ≤ 2 ≤ amd64_max_slice_cap
  ∧ ∃ stats,
      collect_all amd64_max_slice_cap DatabaseStats.zero
        [snapshot "a" 5 10; snapshot "b" 0 30; snapshot "c" 7 20; snapshot "d" 5 40] 2
      = Ok stats
      ∧ is_top BasketInfo.RequestsTotalCount 2
          [snapshot "a" 5 10; snapshot "b" 0 30; snapshot "c" 7 20; snapshot "d" 5 40]
          (DatabaseStats.TopBasketsBySize stats)
      ∧ is_top BasketInfo.LastRequestDate 2
          [snapshot "a" 5 10; snapshot "b" 0 30; snapshot "c" 7 20; snapshot "d" 5 40]
          (DatabaseStats.TopBasketsByDate stats).
Proof.
  split; [by vm_compute|].
  apply Collect_top_lists. by vm_compute.
Defined.

(** The lists of the fifth scenario of the specification: counts 5, 0 and 7
    with the bound 2 give the list of 7 and 5. *)
Example Collect_scenario_5 :
  ∃ stats,
    collect_all amd64_max_slice_cap DatabaseStats.zero
      [snapshot "a" 5 10; snapshot "b" 0 30; snapshot "c" 7 20] 2 = Ok stats
    ∧ DatabaseStats.BasketsCount stats = 3
    ∧ DatabaseStats.EmptyBasketsCount stats = 1
    ∧ DatabaseStats.MaxBasketSize stats = 7
    ∧ elems (DatabaseStats.TopBasketsBySize stats)
      = [Some (snapshot "c" 7 20); Some (snapshot "a" 5 10)].
Proof. eexists. split; [by vm_compute|]. done. Qed.

(** C8, as stated, fails where the subtraction overflows: with one basket,
    the least [int] as the count of empty baskets and the greatest [int] as
    the total count, the denominator [baskets_count - empty_baskets_count]
    is positive and the quotient is 0, but the code divides by the wrapped
    difference and stores -1. *)
Lemma UpdateAvarage_avg_overflow :
  ∃ s s',
    s = {| DatabaseStats.BasketsCount := 1;
           DatabaseStats.EmptyBasketsCount := goint.min_int;
           DatabaseStats.RequestsCount := 0;
           DatabaseStats.RequestsTotalCount := goint.max_int;
           DatabaseStats.MaxBasketSize := 0;
           DatabaseStats.AvgBasketSize := 0;
           DatabaseStats.TopBasketsBySize := None;
           DatabaseStats.TopBasketsByDate := None |}
    ∧ goint.in_range (DatabaseStats.BasketsCount s)
    ∧ goint.in_range (DatabaseStats.EmptyBasketsCount s)
    ∧ goint.in_range (DatabaseStats.RequestsTotalCount s)
    ∧ 0 < DatabaseStats.BasketsCount s - DatabaseStats.EmptyBasketsCount s
    ∧ Z.quot (DatabaseStats.RequestsTotalCount s)
        (DatabaseStats.BasketsCount s - DatabaseStats.EmptyBasketsCount s) = 0
    ∧ UpdateAvarage s = Ok s'
    ∧ DatabaseStats.AvgBasketSize s' = -1.
Proof.
  eexists _, _. split; [reflexivity|].
  split; [by vm_compute|]. split; [by vm_compute|]. split; [by vm_compute|].
  split; [by vm_compute|]. split; [by vm_compute|].
  split; [by vm_compute|]. by vm_compute.
Qed.

(** C8 (amended). In every state in which the difference
    [baskets_count - empty_baskets_count] does not overflow the type [int],
    [avg_basket_size] after [UpdateAvarage] is [requests_total_count]
    divided by that difference, truncated towards zero, when the difference
    is positive, and 0 otherwise; the total count is a Go integer. For
    snapshots with the counts 5, 0 and 7 the average is 12/2 = 6. *)
Theorem UpdateAvarage_avg (s : DatabaseStats.t) :
  goint.in_range (DatabaseStats.RequestsTotalCount s) →
  goint.in_range (DatabaseStats.BasketsCount s - DatabaseStats.EmptyBasketsCount s) →
  (∃ s', UpdateAvarage s = Ok s'
     ∧ DatabaseStats.AvgBasketSize s'
       = if decide (0 < DatabaseStats.BasketsCount s - DatabaseStats.EmptyBasketsCount s)
         then Z.quot (DatabaseStats.RequestsTotalCount s)
                (DatabaseStats.BasketsCount s - DatabaseStats.EmptyBasketsCount s)
         else 0)
  ∧ (∀ b1 b2 b3,
       BasketInfo.RequestsTotalCount b1 = 5 →
       BasketInfo.RequestsTotalCount b2 = 0 →
       BasketInfo.RequestsTotalCount b3 = 7 →
       ∃ s3 s', collect_all amd64_max_slice_cap DatabaseStats.zero [b1; b2; b3] 2 = Ok s3
         ∧ UpdateAvarage s3 = Ok s'
         ∧ DatabaseStats.AvgBasketSize s' = 6).
Proof.
  intros Hrtc Hd. split; [by apply UpdateAvarage_spec|].
  intros b1 b2 b3 H1 H2 H3.
  assert (0 ≤ 2 ≤ amd64_max_slice_cap) as HK by (by vm_compute).
  destruct (collect_all_counters amd64_max_slice_cap 2 [b1; b2; b3] HK)
    as (s3 & E3 & Hbc3 & Hebc3 & Hrtc3 & _); [by vm_compute|].
  rewrite filter_cons_False, filter_cons_True, filter_cons_False, filter_nil
    in Hebc3 by lia.
  cbn [foldl] in Hrtc3. rewrite H1, H2, H3 in Hrtc3.
  change (Z.of_nat (length [b1; b2; b3])) with 3 in Hbc3.
  change (Z.of_nat (length [b2])) with 1 in Hebc3.
  change (goint.add (goint.add (goint.add 0 5) 0) 7) with 12 in Hrtc3.
  assert (goint.in_range (DatabaseStats.RequestsTotalCount s3)) as Hr1
    by (rewrite Hrtc3; by vm_compute).
  assert (goint.in_range
            (DatabaseStats.BasketsCount s3 - DatabaseStats.EmptyBasketsCount s3)) as Hr2
    by (rewrite Hbc3, Hebc3; by vm_compute).
  destruct (UpdateAvarage_spec s3 Hr1 Hr2) as (s' & Es' & Havg).
  exists s3, s'. split; [done|]. split; [done|].
  rewrite Havg, Hbc3, Hebc3, Hrtc3. done.
Qed.

Lemma UpdateAvarage_avg_witness :
  ∃ s', UpdateAvarage
          {| DatabaseStats.BasketsCount := 5;
             DatabaseStats.EmptyBasketsCount := -1;
             DatabaseStats.RequestsCount := 9;
             DatabaseStats.RequestsTotalCount := -14;
             DatabaseStats.MaxBasketSize := 7;
             DatabaseStats.AvgBasketSize := 0;
             DatabaseStats.TopBasketsBySize := None;
             DatabaseStats.TopBasketsByDate := None |} = Ok s'
    ∧ DatabaseStats.AvgBasketSize s' = -2.
Proof.
  destruct (UpdateAvarage_avg
    {| DatabaseStats.BasketsCount := 5;
       DatabaseStats.EmptyBasketsCount := -1;
       DatabaseStats.RequestsCount := 9;
       DatabaseStats.RequestsTotalCount := -14;
       DatabaseStats.MaxBasketSize := 7;
       DatabaseStats.AvgBasketSize := 0;
       DatabaseStats.TopBasketsBySize := None;
       DatabaseStats.TopBasketsByDate := None |})
    as [(s' & Hs' & Havg) _];
    [by vm_compute.. |].
  exists s'. split; [exact Hs' | exact Havg].
Defined.

(** ** Header maps *)

Module Header_facts.
Import textproto.

Lemma values_insert (m : gmap string (list string)) (k K : string) vs :
  Header.values (<[k := vs]> m) K = if decide (k = K) then vs else Header.values m K.
Proof.
  unfold Header.values. rewrite lookup_insert. by destruct (decide (k = K)).
Qed.

Lemma values_Add (m : gmap string (list string)) (k v K : string) :
  Header.values (Header.Add m k v) K
  = Header.values m K ++ (if decide (CanonicalMIMEHeaderKey k = K) then [v] else []).
Proof.
  unfold Header.Add. rewrite values_insert.
  destruct (decide (CanonicalMIMEHeaderKey k = K)) as [->|]; [done|].
  by rewrite app_nil_r.
Qed.

Lemma values_Del (m : gmap string (list string)) (k K : string) :
  Header.values (Header.Del m k) K
  = if decide (CanonicalMIMEHeaderKey k = K) then [] else Header.values m K.
Proof.
  unfold Header.Del, Header.values. rewrite lookup_delete.
  by destruct (decide (CanonicalMIMEHeaderKey k = K)).
Qed.

Lemma values_Set (m : gmap string (list string)) (k v K : string) :
  Header.values (Header.Set_ m k v) K
  = if decide (CanonicalMIMEHeaderKey k = K) then [v] else Header.values m K.
Proof. unfold Header.Set_. apply values_insert. Qed.

Lemma values_add_all (m : gmap string (list string)) (k K : string) vals :
  Header.values (add_all m k vals) K
  = Header.values m K ++ (if decide (CanonicalMIMEHeaderKey k = K) then vals else []).
Proof.
  unfold add_all. revert m. induction vals as [|v vals IH]; intros m; simpl.
  - destruct (decide _); by rewrite app_nil_r.
  - rewrite IH, values_Add. destruct (decide _); by rewrite <- ?app_assoc.
Qed.

Lemma captured_values_cons (k : string) vals entries (K : string) :
  captured_values ((k, vals) :: entries) K
  = (if decide (CanonicalMIMEHeaderKey k = K) then vals else [])
    ++ captured_values entries K.
Proof.
  unfold captured_values. rewrite filter_cons. simpl.
  by destruct (decide (CanonicalMIMEHeaderKey k = K)).
Qed.

(** The copy loop appends, under every canonical name, the values captured
    under that name. *)
Lemma values_copied (m : gmap string (list string)) entries (K : string) :
  Header.values (copied m entries) K = Header.values m K ++ captured_values entries K.
Proof.
  unfold copied. revert m. induction entries as [|[k vals] entries IH]; intros m; simpl.
  - by rewrite app_nil_r.
  - rewrite IH, values_add_all, captured_values_cons. simpl. by rewrite <- app_assoc.
Qed.

Lemma outbound_headers_values entries (K : string) :
  Header.values (outbound_headers entries) K
  = if decide (K = "X-Do-Not-Forward") then ["1"]
    else if decide (K ∈ ["Connection"; "Upgrade"; "Te"]) then []
    else captured_values entries K.
Proof.
  unfold outbound_headers. rewrite values_Set, !values_Del, values_copied.
  change (CanonicalMIMEHeaderKey DoNotForwardHeader) with "X-Do-Not-Forward".
  change (CanonicalMIMEHeaderKey "Connection") with "Connection".
  change (CanonicalMIMEHeaderKey "Upgrade") with "Upgrade".
  change (CanonicalMIMEHeaderKey "TE") with "Te".
  destruct (decide (K = "X-Do-Not-Forward")) as [->|HK]; [done|].
  rewrite (decide_False (P := "X-Do-Not-Forward" = K)) by done.
  destruct (decide (K ∈ ["Connection"; "Upgrade"; "Te"])) as [Hin|Hout].
  - apply elem_of_cons in Hin as [->|Hin]; [done|].
    apply elem_of_cons in Hin as [->|Hin]; [done|].
    apply list_elem_of_singleton in Hin as ->. done.
  - rewrite !decide_False; [done|intros <-; apply Hout; set_solver..].
Qed.

(** With canonical names no two captured entries fall under one name. *)
Lemma captured_values_list_to_map entries (K : string) :
  NoDup entries.*1 →
  (∀ k vals, (k, vals) ∈ entries → CanonicalMIMEHeaderKey k = k) →
  captured_values entries K
  = Header.values (list_to_map entries : gmap string (list string)) K.
Proof.
  induction entries as [|[k vals] entries IH]; intros Hnd Hcan; [done|].
  apply NoDup_cons in Hnd as [Hk Hnd]. simpl in Hk.
  rewrite captured_values_cons. simpl. rewrite values_insert.
  rewrite (Hcan k vals) by left.
  rewrite IH; [|done|intros ???; apply (Hcan _ vals0); by right].
  destruct (decide (k = K)) as [<-|]; [|done].
  unfold Header.values. rewrite (not_elem_of_list_to_map_1 _ k) by done.
  by rewrite app_nil_r.
Qed.

Lemma captured_values_canonical (order : MapRange) (h : gmap string (list string))
    (K : string) :
  canonical_names h →
  captured_values (range_of order h) K = Header.values h K.
Proof.
  intros Hcan. pose proof (range_of_perm order h) as Hperm.
  rewrite captured_values_list_to_map.
  - f_equal. rewrite <- (list_to_map_to_list h) at 2.
    apply list_to_map_proper; [|done].
    rewrite Hperm. apply NoDup_fst_map_to_list.
  - rewrite Hperm. apply NoDup_fst_map_to_list.
  - intros k vals Hin. rewrite Hperm in Hin.
    apply elem_of_map_to_list in Hin. eauto.
Qed.
End Header_facts.

(** ** [Forward], run on a store *)

Section Forward_facts.
Context (lib : GoLib) (order : MapRange).

Lemma set_map_set_map (l : loc) h1 h2 (σ : store) :
  set_map l h2 (set_map l h1 σ) = set_map l h2 σ.
Proof. unfold set_map. simpl. by rewrite insert_insert_eq. Qed.

Lemma update_map_set_map (l : loc) f h (σ : store) :
  update_map l f (set_map l h σ) = Ok ((), set_map l (f h) σ).
Proof.
  unfold update_map. simpl. rewrite lookup_insert_eq. by rewrite set_map_set_map.
Qed.

Lemma add_vals_run (l : loc) (k : string) vals h (σ : store) :
  add_vals l k vals (set_map l h σ) = Ok ((), set_map l (add_all h k vals) σ).
Proof.
  revert h. induction vals as [|v vals IH]; intros h; [done|].
  simpl. unfold bind. by rewrite update_map_set_map, IH.
Qed.

Lemma copy_headers_run (l : loc) entries h (σ : store) :
  copy_headers l entries (set_map l h σ) = Ok ((), set_map l (copied h entries) σ).
Proof.
  revert h. induction entries as [|[k vals] entries IH]; intros h; [done|].
  simpl. unfold bind. by rewrite add_vals_run, IH.
Qed.

(** The outbound request is built in a fresh map. *)
Lemma build_request_run (r : RequestData) (u : url.URL) (σ : store) :
  build_request lib order r u σ
  = match outbound lib order r u with
    | inr err => Ok (inr ("failed to create forward request: " +:+ err), σ)
    | inl q =>
        Ok (inl {| new_Method := http.Request.Method q;
                   new_URL := http.Request.URL q;
                   new_Header := fresh (dom (maps σ));
                   new_Body := http.Request.Body q;
                   new_Host := http.Request.Host q |},
            set_map (fresh (dom (maps σ))) (http.Request.Header q) σ)
    end.
Proof.
  unfold build_request, outbound, http_NewRequest, bind.
  destruct (negb _); [done|].
  destruct (url_Parse lib (URL_String lib u)) as [u'|err]; [|done].
  unfold make_map, ret, forwardHeadersCleanup, bind. simpl.
  rewrite copy_headers_run. by rewrite !update_map_set_map.
Qed.

(** [Forward] computes [forwarded]. *)
Lemma Forward_run (σ : store) (req : loc) (r : RequestData) (client : Client)
    (config : BasketConfig) (basket : string) :
  points_to σ req r →
  Forward lib order req client config basket σ
  = Ok (forwarded lib order r client config basket σ).
Proof.
  unfold points_to, Forward, forwarded. intros Hr.
  destruct (url_ParseRequestURI lib (ForwardURL config)) as [u|err]; [|done].
  unfold bind. rewrite Hr, build_request_run.
  destruct (outbound lib order r (forward_target r config basket u)) as [q|err];
    [|done].
  unfold sent, read_map, client_Do, bind, ret. simpl. rewrite lookup_insert_eq.
  destruct q as [m u' h b host]. simpl.
  by destruct (client _) as [response [err|]].
Qed.

Lemma deref_store (σ σ' : store) (req : loc) (r : RequestData) :
  deref req σ = Ok (r, σ') → σ' = σ.
Proof.
  unfold deref. repeat case_match; naive_solver.
Qed.

(** Reading a record depends on the structs and on the maps that exist. *)
Lemma points_to_frame (σ σ' : store) (req : loc) (r : RequestData) :
  objs σ' = objs σ → maps σ ⊆ maps σ' →
  points_to σ req r → points_to σ' req r.
Proof.
  unfold points_to, deref. intros -> Hmaps.
  destruct (objs σ !! req) as [o|]; [|done].
  destruct (obj_Header o) as [l|]; [|naive_solver].
  destruct (maps σ !! l) as [h|] eqn:E; [|done].
  rewrite (lookup_weaken _ _ _ _ E Hmaps). naive_solver.
Qed.

(** [forwarded] keeps the structs and the maps that exist. *)
Lemma forwarded_frame (σ : store) (r : RequestData) (client : Client)
    (config : BasketConfig) (basket : string) :
  objs (forwarded lib order r client config basket σ).2 = objs σ
  ∧ maps σ ⊆ maps (forwarded lib order r client config basket σ).2.
Proof.
  unfold forwarded.
  destruct (url_ParseRequestURI lib (ForwardURL config)) as [u|err]; [|done].
  destruct (outbound lib order r (forward_target r config basket u)) as [q|err];
    [|done].
  assert (maps σ ⊆ <[fresh (dom (maps σ)) := http.Request.Header q]> (maps σ)).
  { apply insert_subseteq, not_elem_of_dom, is_fresh. }
  by destruct (client q) as [response [err|]].
Qed.
End Forward_facts.

(** ** The forward URL *)

Section target_facts.
Import strings_facts.

Lemma len_pos (s : string) : (strings.len s >? 0) = bool_decide (s ≠ "").
Proof. by destruct s. Qed.

Lemma TrimSuffix_without (s x : string) : without_suffix s x (strings.TrimSuffix s x).
Proof.
  unfold without_suffix, strings.TrimSuffix.
  destruct (strings.HasSuffix s x) eqn:E.
  - left. apply HasSuffix_spec in E as [t ->].
    rewrite length_app.
    replace (String.length t + String.length x - String.length x)%nat
      with (String.length t) by lia.
    by rewrite take_app_length.
  - right. split; [|done]. intros Ht. apply HasSuffix_spec in Ht. congruence.
Qed.

Lemma TrimPrefix_without (s p : string) : without_prefix s p (strings.TrimPrefix s p).
Proof.
  unfold without_prefix, strings.TrimPrefix.
  destruct (strings.HasPrefix s p) eqn:E.
  - left. apply HasPrefix_spec in E as [t ->]. by rewrite drop_app_length.
  - right. split; [|done]. intros Ht. apply HasPrefix_spec in Ht. congruence.
Qed.

(** The path of the target. *)
Lemma forward_target_Path (r : RequestData) (config : BasketConfig)
    (basket : string) (u : url.URL) :
  url.Path (forward_target r config basket u)
  = if ExpandPath config
       && bool_decide (String.length ("/" +:+ basket) < String.length (Path r))%nat
    then expandURL (url.Path u) (Path r) basket
    else url.Path u.
Proof.
  unfold forward_target.
  assert ((strings.len (Path r) >? strings.len basket + 1)
          = bool_decide (String.length ("/" +:+ basket) < String.length (Path r))%nat)
    as ->.
  { unfold strings.len. rewrite app_cons, app_nil_l. simpl.
    destruct (bool_decide_reflect (S (String.length basket) < String.length (Path r))%nat);
      lia. }
  destruct (ExpandPath config && _); by repeat case_match.
Qed.

(** The raw query of the target. *)
Lemma forward_target_RawQuery (r : RequestData) (config : BasketConfig)
    (basket : string) (u : url.URL) :
  url.RawQuery (forward_target r config basket u)
  = if bool_decide (Query r ≠ "") then
      if bool_decide (url.RawQuery u ≠ "")
      then url.RawQuery u +:+ "&" +:+ Query r
      else Query r
    else url.RawQuery u.
Proof.
  unfold forward_target. rewrite len_pos.
  destruct (ExpandPath config && _); simpl; rewrite len_pos;
    by repeat case_match.
Qed.
End target_facts.

(** ** The request for the forward URL *)

(** [http.NewRequest] succeeds on an empty or valid method and a URL that
    parses. *)
Lemma outbound_built (lib : GoLib) (order : MapRange) (r : RequestData)
    (u u' : url.URL) :
  Method r = "" ∨ http.validMethod (Method r) = true →
  url_Parse lib (URL_String lib u) = inl u' →
  outbound lib order r u
  = inl {| http.Request.Method := if bool_decide (Method r = "") then "GET" else Method r;
           http.Request.URL := url.set_Host u' (removeEmptyPort lib (url.Host u'));
           http.Request.Header := outbound_headers (range_of order (Header r));
           http.Request.Body := Body r;
           http.Request.Host := removeEmptyPort lib (url.Host u') |}.
Proof.
  intros Hm Hu. unfold outbound.
  assert (http.validMethod (if bool_decide (Method r = "") then "GET" else Method r)
          = true) as ->.
  { destruct Hm as [-> | Hm]; [done|].
    rewrite bool_decide_eq_false_2; [done|]. intros E. by rewrite E in Hm. }
  by rewrite Hu.
Qed.

(** [Forward] returns, and the request it creates is for the text that the
    forwarded URL prints as: when [http.NewRequest] accepts the method and
    parses that text, one request goes to the client, with the URL parsed
    from it. *)
Lemma Forward_target_request (lib : GoLib) (order : MapRange) (σ : store) (req : loc)
    (r : RequestData) (client : Client) (config : BasketConfig) (basket : string)
    (u : url.URL) :
  points_to σ req r →
  url_ParseRequestURI lib (ForwardURL config) = inl u →
  ∃ res σ',
    Forward lib order req client config basket σ = Ok (res, σ')
    ∧ ∀ u',
        Method r = "" ∨ http.validMethod (Method r) = true →
        url_Parse lib (URL_String lib (forward_target r config basket u)) = inl u' →
        ∃ q, wire σ' = wire σ ++ [q]
          ∧ http.Request.Method q
            = (if bool_decide (Method r = "") then "GET" else Method r)
          ∧ http.Request.URL q = url.set_Host u' (removeEmptyPort lib (url.Host u')).
Proof.
  intros Hr Hu. rewrite (Forward_run lib order σ req r) by done.
  unfold forwarded. rewrite Hu.
  destruct (outbound lib order r (forward_target r config basket u)) as [q|e] eqn:Hq.
  - destruct (client q) as [response [err|]]; eexists _, _; (split; [done|]);
      intros u' Hm Hu'; rewrite (outbound_built lib order r _ u' Hm Hu') in Hq;
      injection Hq as <-; eexists; (split; [done|]); done.
  - eexists _, _. split; [done|]. intros u' Hm Hu'.
    by rewrite (outbound_built lib order r _ u' Hm Hu') in Hq.
Qed.

(** C4. [Forward] creates its request for the forwarded URL, that is for the
    text that [forward_target] prints as: when [http.NewRequest] accepts the
    method and parses that text, one request goes to the client with the URL
    parsed from it. With [expand_path] set and a captured path strictly
    longer than "/" + basket, the path of the forwarded URL is the path of
    the forward URL without a trailing "/", followed by the captured path
    without the prefix "/" + basket; otherwise the path of the forward URL is
    used unchanged. For the forward URL http://up/x/, which is parsed into
    the host up and the path /x/, and the captured request GET /b1/y/z?k=1 on
    the basket b1, the request is created for the URL with the host up, the
    path /x/y/z and the query k=1, which is printed as
    http://up/x/y/z?k=1. *)
Theorem Forward_expand_path (lib : GoLib) (order : MapRange) (σ : store) (req : loc)
    (r : RequestData) (client : Client) (config : BasketConfig) (basket : string)
    (u : url.URL) :
  points_to σ req r →
  url_ParseRequestURI lib (ForwardURL config) = inl u →
  ∃ res σ',
    Forward lib order req client config basket σ = Ok (res, σ')
    ∧ (∀ u',
         Method r = "" ∨ http.validMethod (Method r) = true →
         url_Parse lib (URL_String lib (forward_target r config basket u)) = inl u' →
         ∃ q, wire σ' = wire σ ++ [q]
           ∧ http.Request.URL q = url.set_Host u' (removeEmptyPort lib (url.Host u')))
    ∧ (ExpandPath config = true →
       (String.length ("/" +:+ basket) < String.length (Path r))%nat →
       ∃ front back,
         without_suffix (url.Path u) "/" front
         ∧ without_prefix (Path r) ("/" +:+ basket) back
         ∧ url.Path (forward_target r config basket u) = front +:+ back)
    ∧ (ExpandPath config = false
       ∨ (String.length (Path r) ≤ String.length ("/" +:+ basket))%nat →
       url.Path (forward_target r config basket u) = url.Path u)
    ∧ (∀ u',
         ForwardURL config = "http://up/x/" → u = http_url "up" "/x/" "" →
         ExpandPath config = true → basket = "b1" →
         Method r = "GET" → Path r = "/b1/y/z" → Query r = "k=1" →
         URL_String lib (http_url "up" "/x/y/z" "k=1") = "http://up/x/y/z?k=1" →
         url_Parse lib "http://up/x/y/z?k=1" = inl u' →
         ∃ q, wire σ' = wire σ ++ [q]
           ∧ http.Request.Method q = "GET"
           ∧ http.Request.URL q = url.set_Host u' (removeEmptyPort lib (url.Host u'))).
Proof.
  intros Hr Hu.
  destruct (Forward_target_request lib order σ req r client config basket u Hr Hu)
    as (res & σ' & Hrun & Hsent).
  exists res, σ'. split; [exact Hrun|].
  split; [|split; [|split]].
  - intros u' Hm Hu'. destruct (Hsent u' Hm Hu') as (q & Hwire & _ & HURL). eauto.
  - intros He Hlen. rewrite forward_target_Path, He. simpl.
    rewrite bool_decide_eq_true_2 by done.
    exists (strings.TrimSuffix (url.Path u) "/"),
           (strings.TrimPrefix (Path r) ("/" +:+ basket)).
    split; [apply TrimSuffix_without|]. split; [apply TrimPrefix_without|done].
  - intros Hno. rewrite forward_target_Path.
    destruct Hno as [->|Hlen]; [done|].
    rewrite bool_decide_eq_false_2 by lia. by rewrite andb_false_r.
  - intros u' _ Hup He Hb Hm HP HQ Hprint Hparse.
    assert (forward_target r config basket u = http_url "up" "/x/y/z" "k=1") as Ht.
    { rewrite Hup, Hb. unfold forward_target. by rewrite He, HP, HQ. }
    destruct (Hsent u') as (q & Hwire & Hmethod & HURL).
    + right. by rewrite Hm.
    + by rewrite Ht, Hprint.
    + exists q. split; [exact Hwire|]. split; [|exact HURL].
      rewrite Hmethod. by rewrite Hm.
Qed.

Lemma Forward_expand_path_witness :
  ∃ q res σ',
    Forward scenario_lib listed_order 1%positive ok_client
      {| ForwardURL := "http://up/x/"; ProxyResponse := false; InsecureTLS := false;
         ExpandPath := true; Capacity := 200 |}
      "b1" (captured_store "GET" "/b1/y/z" "k=1" "" ∅)
    = Ok (res, σ')
    ∧ wire σ' = [q]
    ∧ http.Request.Method q = "GET"
    ∧ http.Request.URL q = http_url "up" "/x/y/z" "k=1".
Proof.
  destruct (Forward_expand_path scenario_lib listed_order
              (captured_store "GET" "/b1/y/z" "k=1" "" ∅) 1%positive
              (captured "GET" "/b1/y/z" "k=1" "" ∅) ok_client
              {| ForwardURL := "http://up/x/"; ProxyResponse := false;
                 InsecureTLS := false; ExpandPath := true; Capacity := 200 |}
              "b1" (http_url "up" "/x/" ""))
    as (res & σ' & Hrun & _ & _ & _ & Hexample); [reflexivity | reflexivity |].
  destruct (Hexample (http_url "up" "/x/y/z" "k=1"))
    as (q & Hwire & Hmethod & HURL); [reflexivity..|].
  exists q, res, σ'. split; [exact Hrun|]. split; [exact Hwire|].
  split; [exact Hmethod | exact HURL].
Defined.

(** C6. [Forward] creates its request for the forwarded URL, that is for the
    text that [forward_target] prints as: when [http.NewRequest] accepts the
    method and parses that text, one request goes to the client with the URL
    parsed from it. In the forwarded URL a captured raw query that is not
    empty is appended to a raw query of the forward URL that is not empty,
    with "&" between them; it becomes the raw query when the forward URL has
    none; when the captured query is empty the raw query of the forward URL
    is left unchanged. *)
Theorem Forward_merge_query (lib : GoLib) (order : MapRange) (σ : store) (req : loc)
    (r : RequestData) (client : Client) (config : BasketConfig) (basket : string)
    (u : url.URL) :
  points_to σ req r →
  url_ParseRequestURI lib (ForwardURL config) = inl u →
  ∃ res σ',
    Forward lib order req client config basket σ = Ok (res, σ')
    ∧ (∀ u',
         Method r = "" ∨ http.validMethod (Method r) = true →
         url_Parse lib (URL_String lib (forward_target r config basket u)) = inl u' →
         ∃ q, wire σ' = wire σ ++ [q]
           ∧ http.Request.URL q = url.set_Host u' (removeEmptyPort lib (url.Host u')))
    ∧ (Query r ≠ "" → url.RawQuery u ≠ "" →
       url.RawQuery (forward_target r config basket u)
       = url.RawQuery u +:+ "&" +:+ Query r)
    ∧ (Query r ≠ "" → url.RawQuery u = "" →
       url.RawQuery (forward_target r config basket u) = Query r)
    ∧ (Query r = "" →
       url.RawQuery (forward_target r config basket u) = url.RawQuery u).
Proof.
  intros Hr Hu.
  destruct (Forward_target_request lib order σ req r client config basket u Hr Hu)
    as (res & σ' & Hrun & Hsent).
  exists res, σ'. split; [exact Hrun|].
  split.
  { intros u' Hm Hu'. destruct (Hsent u' Hm Hu') as (q & Hwire & _ & HURL). eauto. }
  rewrite forward_target_RawQuery. split; [|split].
  - intros Hq Hq'. by rewrite !bool_decide_eq_true_2.
  - intros Hq Hq'. rewrite bool_decide_eq_true_2 by done.
    by rewrite bool_decide_eq_false_2 by (by intros []).
  - intros Hq. by rewrite bool_decide_eq_false_2 by (by intros []).
Qed.

Lemma Forward_merge_query_witness :
  ∃ q res σ',
    Forward query_lib listed_order 1%positive ok_client
      {| ForwardURL := "http://up/x?a=1"; ProxyResponse := false;
         InsecureTLS := false; ExpandPath := false; Capacity := 200 |}
      "b1" (captured_store "GET" "/b1" "k=1" "" ∅)
    = Ok (res, σ')
    ∧ wire σ' = [q]
    ∧ http.Request.URL q = http_url "up" "/x" "a=1&k=1".
Proof.
  destruct (Forward_merge_query query_lib listed_order
              (captured_store "GET" "/b1" "k=1" "" ∅) 1%positive
              (captured "GET" "/b1" "k=1" "" ∅) ok_client
              {| ForwardURL := "http://up/x?a=1"; ProxyResponse := false;
                 InsecureTLS := false; ExpandPath := false; Capacity := 200 |}
              "b1" (http_url "up" "/x" "a=1"))
    as (res & σ' & Hrun & Hsent & _); [reflexivity | reflexivity |].
  destruct (Hsent (http_url "up" "/x" "a=1&k=1")) as (q & Hwire & HURL);
    [right; reflexivity | reflexivity |].
  exists q, res, σ'. split; [exact Hrun|]. split; [exact Hwire | exact HURL].
Defined.

(** ** The results of [Forward] *)

(** C5. When the forward URL of the configuration fails to parse as a
    request URI, [Forward] returns a nil response and an error, and does
    nothing else. *)
Theorem Forward_invalid_url (lib : GoLib) (order : MapRange) (σ : store) (req : loc)
    (client : Client) (config : BasketConfig) (basket err : string) :
  url_ParseRequestURI lib (ForwardURL config) = inr err →
  Forward lib order req client config basket σ
  = Ok ((None, Some ("invalid forward URL: " +:+ ForwardURL config +:+ " - " +:+ err)),
        σ).
Proof. intros Herr. unfold Forward. by rewrite Herr. Qed.

Lemma Forward_invalid_url_witness :
  ∃ err,
    Forward scenario_lib listed_order 1%positive ok_client
      {| ForwardURL := "::not-a-url"; ProxyResponse := false; InsecureTLS := false;
         ExpandPath := false; Capacity := 200 |}
      "b1" (captured_store "GET" "/b1" "" "" ∅)
    = Ok ((None, Some err), captured_store "GET" "/b1" "" "" ∅).
Proof.
  eexists. eapply (Forward_invalid_url scenario_lib). reflexivity.
Defined.

(** C1, as stated, fails: the body of the synthesized response does not name
    the basket. Scenario 4: the forward URL http://127.0.0.1:1 is refused. *)
Lemma Forward_bad_gateway_body_without_basket :
  ∃ resp σ',
    Forward scenario_lib listed_order 1%positive refusing_client
      {| ForwardURL := "http://127.0.0.1:1"; ProxyResponse := false;
         InsecureTLS := false; ExpandPath := false; Capacity := 200 |}
      "b1" (captured_store "POST" "/b1" "" "hi" ∅)
    = Ok ((Some resp, None), σ')
    ∧ http.Response.StatusCode resp = 502
    ∧ http.Response.Body resp
      = "Failed to forward request: dial tcp 127.0.0.1:1: connect: connection refused"
    ∧ ¬ occurs_in "b1" (http.Response.Body resp).
Proof.
  eexists _, _. split; [by vm_compute|]. split; [done|]. split; [done|].
  rewrite <- strings_facts.Contains_spec. by vm_compute.
Qed.

(** C1 (amended). When the forward URL parses and the client fails on the
    forwarded request, [Forward] returns a nil error and a synthesized
    response with the status 502, the header Content-Type: text/plain and
    the body "Failed to forward request: " followed by the error of the
    client; the error is not returned to the caller. The basket is named in
    the line written to the log. *)
Theorem Forward_bad_gateway (lib : GoLib) (order : MapRange) (σ : store) (req : loc)
    (r : RequestData) (client : Client) (config : BasketConfig) (basket : string)
    (u : url.URL) (q : http.Request.t) (answer : option http.Response.t)
    (err : string) :
  points_to σ req r →
  url_ParseRequestURI lib (ForwardURL config) = inl u →
  outbound lib order r (forward_target r config basket u) = inl q →
  client q = (answer, Some err) →
  ∃ resp σ',
    Forward lib order req client config basket σ = Ok ((Some resp, None), σ')
    ∧ http.Response.StatusCode resp = 502
    ∧ http.Response.Header resp = {[ "Content-Type" := ["text/plain"] ]}
    ∧ http.Response.Body resp = "Failed to forward request: " +:+ err
    ∧ occurs_in err (http.Response.Body resp)
    ∧ wire σ' = wire σ ++ [q]
    ∧ logs σ' = logs σ ++ ["[warn] failed to forward request for basket: "
                            +:+ basket +:+ " - " +:+ err].
Proof.
  intros Hr Hu Hq Hfail. rewrite (Forward_run lib order σ req r) by done.
  unfold forwarded. rewrite Hu, Hq, Hfail.
  eexists _, _. split; [done|].
  split; [done|]. split; [by vm_compute|]. split; [done|].
  split; [|done]. exists "Failed to forward request: ", "".
  by rewrite strings_facts.app_nil_r.
Qed.

Lemma Forward_bad_gateway_witness :
  ∃ resp σ',
    Forward scenario_lib listed_order 1%positive refusing_client
      {| ForwardURL := "http://127.0.0.1:1"; ProxyResponse := false;
         InsecureTLS := false; ExpandPath := false; Capacity := 200 |}
      "b1" (captured_store "POST" "/b1" "" "hi" ∅)
    = Ok ((Some resp, None), σ')
    ∧ http.Response.StatusCode resp = 502.
Proof.
  edestruct (Forward_bad_gateway scenario_lib listed_order
    (captured_store "POST" "/b1" "" "hi" ∅) 1%positive
    (captured "POST" "/b1" "" "hi" ∅) refusing_client
    {| ForwardURL := "http://127.0.0.1:1"; ProxyResponse := false;
       InsecureTLS := false; ExpandPath := false; Capacity := 200 |} "b1")
    as (resp & σ' & Hrun & Hstatus & _);
    [reflexivity | reflexivity | reflexivity | reflexivity |].
  exists resp, σ'. split; [exact Hrun | exact Hstatus].
Defined.

(** C7, as stated, fails for a captured record with an empty method: the
    request goes out with the method GET, which [http.NewRequest] puts in
    the place of an empty method. *)
Lemma Forward_outbound_request_method_differs :
  ∃ q res σ',
    points_to (captured_store "" "/b1" "" "hi" ∅) 1%positive
      (captured "" "/b1" "" "hi" ∅)
    ∧ Forward scenario_lib listed_order 1%positive ok_client
        {| ForwardURL := "http://127.0.0.1:1"; ProxyResponse := false;
           InsecureTLS := false; ExpandPath := false; Capacity := 200 |}
        "b1" (captured_store "" "/b1" "" "hi" ∅)
      = Ok (res, σ')
    ∧ wire σ' = [q]
    ∧ http.Request.Body q = "hi"
    ∧ http.Request.Method q = "GET"
    ∧ http.Request.Method q ≠ Method (captured "" "/b1" "" "hi" ∅).
Proof.
  eexists _, _, _. split; [reflexivity|]. split; [by vm_compute|].
  split; [reflexivity|]. split; [reflexivity|]. split; [reflexivity|].
  discriminate.
Qed.

(** C7 (amended). For a captured request whose method is empty or valid and
    a forward URL that parses, the request that [Forward] hands to the
    client has the captured body and the captured method, GET for an empty
    method; under every header name it carries the captured values of that
    name, except that it carries nothing under Connection, Upgrade and TE
    (in canonical form, Te) and the single value "1" under
    X-Do-Not-Forward. The names are compared in the canonical form of
    [net/http]; when the captured names are canonical, the values are those
    of the captured map. *)
Theorem Forward_outbound_request (lib : GoLib) (order : MapRange) (σ : store)
    (req : loc) (r : RequestData) (client : Client) (config : BasketConfig)
    (basket : string) (u u' : url.URL) :
  points_to σ req r →
  url_ParseRequestURI lib (ForwardURL config) = inl u →
  Method r = "" ∨ http.validMethod (Method r) = true →
  url_Parse lib (URL_String lib (forward_target r config basket u)) = inl u' →
  ∃ q res σ',
    Forward lib order req client config basket σ = Ok (res, σ')
    ∧ wire σ' = wire σ ++ [q]
    ∧ http.Request.Method q = (if decide (Method r = "") then "GET" else Method r)
    ∧ http.Request.Body q = Body r
    ∧ (∀ name,
         Header.values (http.Request.Header q) name
         = if decide (name = "X-Do-Not-Forward") then ["1"]
           else if decide (name ∈ ["Connection"; "Upgrade"; "Te"]) then []
           else captured_values (range_of order (Header r)) name)
    ∧ (canonical_names (Header r) →
       ∀ name,
         Header.values (http.Request.Header q) name
         = if decide (name = "X-Do-Not-Forward") then ["1"]
           else if decide (name ∈ ["Connection"; "Upgrade"; "Te"]) then []
           else Header.values (Header r) name).
Proof.
  intros Hr Hu Hm Hu'. rewrite (Forward_run lib order σ req r) by done.
  unfold forwarded. rewrite Hu.
  rewrite (outbound_built lib order r _ u' Hm Hu').
  set (q := {| http.Request.Method :=
                 if bool_decide (Method r = "") then "GET" else Method r;
               http.Request.Header := outbound_headers (range_of order (Header r)) |}).
  exists q.
  assert (http.Request.Method q = (if decide (Method r = "") then "GET" else Method r))
    as Hmethod.
  { unfold q. simpl. by destruct (decide (Method r = "")) as [->|];
      [|rewrite bool_decide_eq_false_2]. }
  assert (∀ name,
    Header.values (http.Request.Header q) name
    = if decide (name = "X-Do-Not-Forward") then ["1"]
      else if decide (name ∈ ["Connection"; "Upgrade"; "Te"]) then []
      else captured_values (range_of order (Header r)) name) as Hhdr
    by (intros; apply Header_facts.outbound_headers_values).
  destruct (client q) as [response [err|]]; eexists _, _;
    (split; [reflexivity|]); (split; [reflexivity|]);
    (split; [exact Hmethod|]); (split; [reflexivity|]);
    (split; [exact Hhdr|]);
    intros Hcan name; rewrite Hhdr;
    by rewrite Header_facts.captured_values_canonical.
Qed.

Lemma Forward_outbound_request_witness :
  ∃ q res σ',
    Forward scenario_lib listed_order 1%positive ok_client
      {| ForwardURL := "http://up/x/"; ProxyResponse := false; InsecureTLS := false;
         ExpandPath := true; Capacity := 200 |}
      "b1"
      (captured_store "GET" "/b1/y/z" "k=1" ""
         {[ "Accept" := ["text/html"; "*/*"]; "Connection" := ["keep-alive"] ]})
    = Ok (res, σ')
    ∧ wire σ' = [q]
    ∧ http.Request.Method q = "GET"
    ∧ http.Request.URL q = http_url "up" "/x/y/z" "k=1".
Proof.
  edestruct (Forward_outbound_request scenario_lib listed_order
    (captured_store "GET" "/b1/y/z" "k=1" ""
       {[ "Accept" := ["text/html"; "*/*"]; "Connection" := ["keep-alive"] ]})
    1%positive
    (captured "GET" "/b1/y/z" "k=1" ""
       {[ "Accept" := ["text/html"; "*/*"]; "Connection" := ["keep-alive"] ]})
    ok_client
    {| ForwardURL := "http://up/x/"; ProxyResponse := false; InsecureTLS := false;
       ExpandPath := true; Capacity := 200 |} "b1")
    as (q & res & σ' & Hrun & Hwire & Hmethod & _);
    [reflexivity | reflexivity | right; reflexivity | reflexivity |].
  exists q, res, σ'. split; [exact Hrun|]. split; [exact Hwire|].
  split; [exact Hmethod|].
  vm_compute in Hrun. injection Hrun as _ Hσ'. rewrite <- Hσ' in Hwire.
  simpl in Hwire. injection Hwire as <-. reflexivity.
Defined.

(** C10. [Forward] does not change its receiver: it returns, and the structs
    and the header maps that existed before are as they were, so that the
    receiver reads as before; the removal of Connection, Upgrade and TE and
    the marker go to a map of the new request. The client is a function of
    the request it receives and has no access to the captured record. *)
Theorem Forward_frame (lib : GoLib) (order : MapRange) (σ : store) (req : loc)
    (r : RequestData) (client : Client) (config : BasketConfig) (basket : string) :
  points_to σ req r →
  ∃ res σ',
    Forward lib order req client config basket σ = Ok (res, σ')
    ∧ objs σ' = objs σ
    ∧ maps σ ⊆ maps σ'
    ∧ points_to σ' req r.
Proof.
  intros Hr. rewrite (Forward_run lib order σ req r) by done.
  destruct (forwarded lib order r client config basket σ) as [res σ'] eqn:E.
  pose proof (forwarded_frame lib order σ r client config basket) as [Hobjs Hmaps].
  rewrite E in Hobjs, Hmaps. simpl in Hobjs, Hmaps.
  exists res, σ'. split; [done|]. split; [done|]. split; [done|].
  by apply (points_to_frame σ).
Qed.

Lemma Forward_frame_witness :
  ∃ res σ',
    Forward scenario_lib listed_order 1%positive ok_client
      {| ForwardURL := "http://up/x/"; ProxyResponse := false; InsecureTLS := false;
         ExpandPath := true; Capacity := 200 |}
      "b1"
      (captured_store "GET" "/b1/y/z" "k=1" ""
         {[ "Te" := ["trailers"]; "X-Do-Not-Forward" := ["0"] ]})
    = Ok (res, σ')
    ∧ points_to σ' 1%positive
        (captured "GET" "/b1/y/z" "k=1" ""
           {[ "Te" := ["trailers"]; "X-Do-Not-Forward" := ["0"] ]}).
Proof.
  edestruct (Forward_frame scenario_lib listed_order
    (captured_store "GET" "/b1/y/z" "k=1" ""
       {[ "Te" := ["trailers"]; "X-Do-Not-Forward" := ["0"] ]})
    1%positive
    (captured "GET" "/b1/y/z" "k=1" ""
       {[ "Te" := ["trailers"]; "X-Do-Not-Forward" := ["0"] ]})
    ok_client
    {| ForwardURL := "http://up/x/"; ProxyResponse := false; InsecureTLS := false;
       ExpandPath := true; Capacity := 200 |} "b1")
    as (res & σ' & Hrun & _ & _ & Hpoints);
    [reflexivity |].
  exists res, σ'. split; [exact Hrun | exact Hpoints].
Defined.

(** The third scenario of the specification: the request that goes out for
    GET /b1/y/z?k=1 with the forward URL http://up/x/ and [expand_path]. *)
Example Forward_scenario_3 :
  ∃ res σ',
    Forward scenario_lib listed_order 1%positive ok_client
      {| ForwardURL := "http://up/x/"; ProxyResponse := false; InsecureTLS := false;
         ExpandPath := true; Capacity := 200 |}
      "b1"
      (captured_store "GET" "/b1/y/z" "k=1" ""
         {[ "Accept" := ["text/html"]; "Connection" := ["keep-alive"];
            "Te" := ["trailers"] ]})
    = Ok (res, σ')
    ∧ wire σ'
      = [ {| http.Request.Method := "GET";
             http.Request.URL := http_url "up" "/x/y/z" "k=1";
             http.Request.Header :=
               {[ "Accept" := ["text/html"]; "X-Do-Not-Forward" := ["1"] ]};
             http.Request.Body := "";
             http.Request.Host := "up" |} ].
Proof. eexists _, _. split; by vm_compute. Qed.

(** * Further properties of the code *)

(** The canonical names of a map given by its entries. *)
Lemma canonical_names_checked (h : gmap string (list string)) :
  forallb (λ e, bool_decide (textproto.CanonicalMIMEHeaderKey e.1 = e.1)) (map_to_list h)
  = true →
  canonical_names h.
Proof.
  intros Hall name vals Hname.
  rewrite forallb_forall in Hall.
  assert (In (name, vals) (map_to_list h)) as Hin
    by (by apply list_elem_of_In, elem_of_map_to_list).
  apply Hall in Hin. by apply bool_decide_eq_true in Hin.
Qed.

(** ** [ToRequestData] *)

Section capture_facts.
Context (order : MapRange).

Lemma update_obj_with_capture σ data o l m f :
  update_obj data f (with_capture σ data o l m) = Ok ((), with_capture σ data (f o) l m).
Proof.
  unfold update_obj, with_capture, set_obj. simpl.
  rewrite lookup_insert_eq. by rewrite insert_insert_eq.
Qed.

Lemma update_map_with_capture σ data o l m f :
  update_map l f (with_capture σ data o l m) = Ok ((), with_capture σ data o l (f m)).
Proof.
  unfold update_map, with_capture, set_obj, set_map. simpl.
  rewrite lookup_insert_eq. by rewrite insert_insert_eq.
Qed.

Lemma copy_entries_run σ data o l m entries :
  copy_entries l entries (with_capture σ data o l m)
  = Ok ((), with_capture σ data o l (foldl (λ m e, <[e.1 := e.2]> m) m entries)).
Proof.
  revert m. induction entries as [|[k v] entries IH]; intros m; [done|].
  simpl. unfold bind. by rewrite update_map_with_capture, IH.
Qed.

(** Assigning the entries of a map one by one rebuilds the map, in whatever
    order they are visited. *)
Lemma foldl_insert_entries (entries : list (string * list string)) :
  foldl (λ m e, <[e.1 := e.2]> m) (∅ : gmap string (list string)) entries
  = list_to_map (reverse entries).
Proof.
  induction entries as [|[k v] entries IH] using rev_ind; [done|].
  rewrite foldl_snoc, reverse_snoc, IH. done.
Qed.

Lemma foldl_insert_range (h : gmap string (list string)) :
  foldl (λ m e, <[e.1 := e.2]> m) ∅ (range_of order h) = h.
Proof.
  rewrite foldl_insert_entries.
  rewrite <- (list_to_map_to_list h) at 2.
  apply list_to_map_proper.
  - rewrite fmap_reverse, reverse_Permutation, (range_of_perm order h).
    apply NoDup_fst_map_to_list.
  - by rewrite reverse_Permutation, (range_of_perm order h).
Qed.

Lemma range_map_with_capture σ data o l m (req : InboundRequest) h :
  inbound_headers σ req = Some h →
  l = fresh (dom (maps σ)) →
  range_map order (in_Header req) (with_capture σ data o l m)
  = Ok (range_of order h, with_capture σ data o l m)
    ∨ (in_Header req = None ∧ h = ∅
       ∧ range_map order (in_Header req) (with_capture σ data o l m)
         = Ok ([], with_capture σ data o l m)).
Proof.
  unfold inbound_headers, range_map. intros Hh ->.
  destruct (in_Header req) as [lin|]; [left|right; naive_solver].
  simpl. rewrite lookup_insert_ne; [by rewrite Hh|].
  intros <-. apply (is_fresh (dom (maps σ))). apply elem_of_dom. eauto.
Qed.

(** [ToRequestData], run on a store. *)
Lemma ToRequestData_unfold (now : Z) (req : InboundRequest) (σ : store)
    (h : gmap string (list string)) :
  inbound_headers σ req = Some h →
  ToRequestData order now req σ
  = match in_URL req, in_Body req with
    | Some u, Some body =>
        Ok (fresh (dom (objs σ)),
            with_capture σ (fresh (dom (objs σ)))
              {| obj_Date := goint.quo now toMs;
                 obj_Header := Some (fresh (dom (maps σ)));
                 obj_ContentLength := in_ContentLength req;
                 obj_Body := body; obj_Method := in_Method req;
                 obj_Path := url.Path u; obj_Query := url.RawQuery u |}
              (fresh (dom (maps σ))) h)
    | _, _ => Panic
    end.
Proof.
  intros Hh. unfold ToRequestData, bind, new_RequestData.
  unfold update_obj at 1. simpl. rewrite lookup_insert_eq.
  unfold make_map. simpl.
  set (data := fresh (dom (objs σ))). set (l := fresh (dom (maps σ))).
  assert (∀ o, set_map l ∅ (set_obj data o (set_obj data zero_obj σ))
             = with_capture σ data o l ∅) as Hnorm.
  { intros o. unfold with_capture, set_map, set_obj. simpl.
    by rewrite insert_insert_eq. }
  rewrite Hnorm, update_obj_with_capture.
  destruct (range_map_with_capture σ data
              (with_Header (Some l) (with_Date (goint.quo now toMs) zero_obj))
              l ∅ req h Hh eq_refl) as [Hr | (Hnil & -> & Hr)]; rewrite Hr.
  - rewrite copy_entries_run, foldl_insert_range.
    rewrite !update_obj_with_capture.
    destruct (in_URL req) as [u|]; [|done].
    rewrite !update_obj_with_capture.
    destruct (in_Body req) as [body|]; [|done].
    by rewrite update_obj_with_capture.
  - simpl. rewrite !update_obj_with_capture.
    destruct (in_URL req) as [u|]; [|done].
    rewrite !update_obj_with_capture.
    destruct (in_Body req) as [body|]; [|done].
    by rewrite update_obj_with_capture.
Qed.

Lemma ToRequestData_run (now : Z) (req : InboundRequest) (σ : store)
    (u : url.URL) (body : string) (h : gmap string (list string)) :
  in_URL req = Some u → in_Body req = Some body →
  inbound_headers σ req = Some h →
  ToRequestData order now req σ
  = Ok (fresh (dom (objs σ)),
        with_capture σ (fresh (dom (objs σ)))
          {| obj_Date := goint.quo now toMs;
             obj_Header := Some (fresh (dom (maps σ)));
             obj_ContentLength := in_ContentLength req;
             obj_Body := body; obj_Method := in_Method req;
             obj_Path := url.Path u; obj_Query := url.RawQuery u |}
          (fresh (dom (maps σ))) h).
Proof.
  intros Hu Hb Hh. rewrite (ToRequestData_unfold now req σ h Hh). by rewrite Hu, Hb.
Qed.
End capture_facts.

Lemma with_capture_points_to σ data o l m :
  obj_Header o = Some l →
  points_to (with_capture σ data o l m) data
    {| Date := obj_Date o; Header := m; ContentLength := obj_ContentLength o;
       Body := obj_Body o; Method := obj_Method o; Path := obj_Path o;
       Query := obj_Query o |}.
Proof.
  intros Hl. unfold points_to, deref, with_capture. simpl.
  rewrite lookup_insert_eq, Hl. by rewrite lookup_insert_eq.
Qed.

Lemma with_capture_frame σ data o l m :
  data = fresh (dom (objs σ)) → l = fresh (dom (maps σ)) →
  objs σ ⊆ objs (with_capture σ data o l m)
  ∧ maps σ ⊆ maps (with_capture σ data o l m).
Proof.
  intros -> ->. unfold with_capture. simpl.
  split; apply insert_subseteq, not_elem_of_dom, is_fresh.
Qed.

(** X1. [ToRequestData] on a request that has a URL and a body returns a
    pointer to a new struct, at a location that was free, which reads as:
    the time in milliseconds (the nanoseconds divided by 1000000, truncated
    toward zero), a header map with the entries of the request's header map
    (none for a [nil] map), and the content length, method, path, raw query
    and body of the request. The structs and maps that existed are kept;
    nothing is logged or sent. *)
Theorem ToRequestData_captures (order : MapRange) (now : Z) (req : InboundRequest)
    (σ : store) (u : url.URL) (body : string) (h : gmap string (list string)) :
  in_URL req = Some u → in_Body req = Some body →
  inbound_headers σ req = Some h →
  goint.in_range now →
  ∃ data σ',
    ToRequestData order now req σ = Ok (data, σ')
    ∧ objs σ !! data = None
    ∧ points_to σ' data
        {| Date := Z.quot now 1000000; Header := h;
           ContentLength := in_ContentLength req; Body := body;
           Method := in_Method req; Path := url.Path u; Query := url.RawQuery u |}
    ∧ objs σ ⊆ objs σ' ∧ maps σ ⊆ maps σ'
    ∧ logs σ' = logs σ ∧ wire σ' = wire σ.
Proof.
  intros Hu Hb Hh Hnow. rewrite (ToRequestData_run order now req σ u body h) by done.
  eexists _, _. split; [done|].
  split; [apply not_elem_of_dom, is_fresh|].
  split.
  - assert (goint.quo now toMs = Z.quot now 1000000) as <-.
    { unfold goint.quo, toMs. apply goint_facts.wrap64_id.
      by apply goint_facts.quot_range. }
    by apply with_capture_points_to.
  - destruct (with_capture_frame σ (fresh (dom (objs σ)))
      {| obj_Date := goint.quo now toMs;
         obj_Header := Some (fresh (dom (maps σ)));
         obj_ContentLength := in_ContentLength req;
         obj_Body := body; obj_Method := in_Method req;
         obj_Path := url.Path u; obj_Query := url.RawQuery u |}
      (fresh (dom (maps σ))) h eq_refl eq_refl). done.
Qed.

Lemma ToRequestData_captures_witness :
  ∃ data σ' r,
    ToRequestData listed_order 1700000000000123456 inbound_get inbound_store
    = Ok (data, σ')
    ∧ points_to σ' data r
    ∧ Date r = 1700000000000 ∧ Header r = browser_headers ∧ Path r = "/b1/y/z".
Proof.
  destruct (ToRequestData_captures listed_order 1700000000000123456 inbound_get
              inbound_store (http_url "" "/b1/y/z" "k=1") "" browser_headers)
    as (data & σ' & Hrun & _ & Hpt & _);
    [reflexivity | reflexivity | reflexivity | by vm_compute |].
  eexists data, σ', _. split; [exact Hrun|]. split; [exact Hpt|].
  split; [reflexivity|]. split; reflexivity.
Defined.

(** X2. The captured record has a header map of its own: whatever entries
    are assigned to or deleted from the header map of the inbound request
    afterwards, the record reads with the headers, method and body as
    captured. (The slices of values are shared between the two maps, as in
    the source; the store has no write to an element of a slice, which
    would show in both.) *)
Theorem ToRequestData_copies_headers (order : MapRange) (now : Z)
    (req : InboundRequest) (σ : store) (u : url.URL) (body : string)
    (h : gmap string (list string)) (lin : loc) :
  in_URL req = Some u → in_Body req = Some body →
  in_Header req = Some lin → maps σ !! lin = Some h →
  ∃ data σ',
    ToRequestData order now req σ = Ok (data, σ')
    ∧ ∀ h', ∃ r,
        points_to (set_map lin h' σ') data r
        ∧ Header r = h ∧ Method r = in_Method req ∧ Body r = body.
Proof.
  intros Hu Hb Hin Hh.
  rewrite (ToRequestData_run order now req σ u body h); [|done..|].
  2:{ unfold inbound_headers. by rewrite Hin. }
  eexists _, _. split; [done|]. intros h'.
  assert (lin ≠ fresh (dom (maps σ))) as Hne.
  { intros ->. apply (is_fresh (dom (maps σ))), elem_of_dom. eauto. }
  eexists. split.
  - unfold points_to, deref, set_map, with_capture. simpl.
    rewrite lookup_insert_eq. simpl.
    rewrite lookup_insert_ne by done. rewrite lookup_insert_eq. reflexivity.
  - done.
Qed.

Lemma ToRequestData_copies_headers_witness :
  ∃ data σ',
    ToRequestData listed_order 1700000000000123456 inbound_get inbound_store
    = Ok (data, σ')
    ∧ ∃ r, points_to (set_map 2%positive ∅ σ') data r ∧ Header r = browser_headers.
Proof.
  destruct (ToRequestData_copies_headers listed_order 1700000000000123456 inbound_get
              inbound_store (http_url "" "/b1/y/z" "k=1") "" browser_headers 2%positive)
    as (data & σ' & Hrun & Hall); [reflexivity..|].
  exists data, σ'. split; [exact Hrun|].
  destruct (Hall ∅) as (r & Hpt & Hh & _). eauto.
Defined.

(** X3. Capture, then forward: a request converted by [ToRequestData] and
    forwarded goes to the client once, with the method and the body of the
    inbound request and with its header values under their names, except
    that Connection, Upgrade and Te are dropped and X-Do-Not-Forward is 1;
    the header map of the inbound request is as it was. The header names are
    canonical, as [net/http] stores them, the method is a valid token, and
    the forward URL and the printed target parse. *)
Theorem capture_then_Forward (lib : GoLib) (order : MapRange) (now : Z)
    (req : InboundRequest) (σ : store) (client : Client) (config : BasketConfig)
    (basket : string) (uin : url.URL) (body : string)
    (h : gmap string (list string)) (u0 u' : url.URL) :
  in_URL req = Some uin → in_Body req = Some body →
  inbound_headers σ req = Some h →
  canonical_names h →
  http.validMethod (in_Method req) = true →
  url_ParseRequestURI lib (ForwardURL config) = inl u0 →
  url_Parse lib
    (URL_String lib
       (forward_target (captured_record now req uin body h) config basket u0))
  = inl u' →
  ∃ data σ1 res σ2 q,
    ToRequestData order now req σ = Ok (data, σ1)
    ∧ Forward lib order data client config basket σ1 = Ok (res, σ2)
    ∧ wire σ2 = wire σ ++ [q]
    ∧ http.Request.Method q = in_Method req
    ∧ http.Request.Body q = body
    ∧ (∀ name,
         Header.values (http.Request.Header q) name
         = if decide (name = "X-Do-Not-Forward") then ["1"]
           else if decide (name ∈ ["Connection"; "Upgrade"; "Te"]) then []
           else Header.values h name)
    ∧ inbound_headers σ2 req = Some h.
Proof.
  intros Hu Hb Hh Hcan Hm Hu0 Hu'.
  rewrite (ToRequestData_run order now req σ uin body h) by done.
  set (data := fresh (dom (objs σ))). set (l := fresh (dom (maps σ))).
  set (o := {| obj_Date := goint.quo now toMs; obj_Header := Some l |}).
  set (σ1 := with_capture σ data o l h).
  assert (points_to σ1 data (captured_record now req uin body h)) as Hpt
    by (by apply with_capture_points_to).
  exists data, σ1. rewrite (Forward_run lib order σ1 data _ client config basket Hpt).
  pose proof (forwarded_frame lib order σ1 (captured_record now req uin body h)
                client config basket) as [_ Hmaps].
  revert Hmaps. unfold forwarded. rewrite Hu0. unfold outbound.
  assert (Method (captured_record now req uin body h) ≠ "") as Hne.
  { simpl. intros E. by rewrite E in Hm. }
  rewrite bool_decide_eq_false_2 by done.
  change (Method (captured_record now req uin body h)) with (in_Method req).
  rewrite Hm, Hu'. change (negb true) with false. cbv beta iota zeta.
  set (q := {| http.Request.Method := in_Method req;
               http.Request.Header :=
                 outbound_headers
                   (range_of order (Header (captured_record now req uin body h))) |}).
  assert (inbound_headers σ1 req = Some h) as Hin1.
  { revert Hh. unfold inbound_headers.
    destruct (in_Header req) as [lin|]; [|done]. intros Hlin.
    eapply lookup_weaken; [exact Hlin|].
    apply (with_capture_frame σ data o l h); done. }
  assert (∀ name,
    Header.values (http.Request.Header q) name
    = if decide (name = "X-Do-Not-Forward") then ["1"]
      else if decide (name ∈ ["Connection"; "Upgrade"; "Te"]) then []
      else Header.values h name) as Hhdr.
  { intros name. unfold q. simpl.
    by rewrite Header_facts.outbound_headers_values,
      Header_facts.captured_values_canonical. }
  destruct (client q) as [response [err|]]; intros Hmaps; eexists _, _, q;
    (split; [reflexivity|]); (split; [reflexivity|]);
    (split; [reflexivity|]); (split; [reflexivity|]);
    (split; [reflexivity|]); (split; [exact Hhdr|]);
    revert Hin1; unfold inbound_headers;
    (destruct (in_Header req) as [lin|]; [|done]);
    intros Hlin; by eapply lookup_weaken.
Qed.

Lemma capture_then_Forward_witness :
  ∃ data σ1 res σ2 q,
    ToRequestData listed_order 1700000000000123456 inbound_get inbound_store
    = Ok (data, σ1)
    ∧ Forward scenario_lib listed_order data ok_client expanding_config "b1" σ1
      = Ok (res, σ2)
    ∧ wire σ2 = [q]
    ∧ Header.values (http.Request.Header q) "Accept" = ["text/html"; "*/*"]
    ∧ Header.values (http.Request.Header q) "Connection" = [].
Proof.
  destruct (capture_then_Forward scenario_lib listed_order 1700000000000123456
              inbound_get inbound_store ok_client expanding_config "b1"
              (http_url "" "/b1/y/z" "k=1") "" browser_headers
              (http_url "up" "/x/" "") (http_url "up" "/x/y/z" "k=1"))
    as (data & σ1 & res & σ2 & q & Hcap & Hfwd & Hwire & _ & _ & Hvals & _);
    [reflexivity | reflexivity | reflexivity
    | by apply canonical_names_checked; vm_compute
    | reflexivity | reflexivity | reflexivity |].
  exists data, σ1, res, σ2, q. split; [exact Hcap|]. split; [exact Hfwd|].
  split; [exact Hwire|]. split.
  - rewrite (Hvals "Accept"). reflexivity.
  - rewrite (Hvals "Connection"). reflexivity.
Defined.

(** ** The requests that [Forward] sends *)

Module canon_facts.
Import textproto.

Lemma canon_loop_cons (upper : bool) (c : ascii) (s : string) :
  canon_loop upper (String c s)
  = String (canon_byte upper c)
      (canon_loop (bool_decide (canon_byte upper c = "-"%char)) s).
Proof. reflexivity. Qed.

Lemma canon_byte_idem (upper : bool) (c : ascii) :
  canon_byte upper (canon_byte upper c) = canon_byte upper c.
Proof. destruct upper, c as [[] [] [] [] [] [] [] []]; reflexivity. Qed.

Lemma canon_byte_valid (upper : bool) (c : ascii) :
  validHeaderFieldByte c = true → validHeaderFieldByte (canon_byte upper c) = true.
Proof. destruct upper, c as [[] [] [] [] [] [] [] []]; vm_compute; auto. Qed.

Lemma canon_loop_idem (upper : bool) (s : string) :
  canon_loop upper (canon_loop upper s) = canon_loop upper s.
Proof.
  revert upper. induction s as [|c s IH]; intros upper; [done|].
  rewrite !canon_loop_cons, canon_byte_idem. by rewrite IH.
Qed.

Lemma canon_loop_valid (upper : bool) (s : string) :
  all_bytes validHeaderFieldByte s = true →
  all_bytes validHeaderFieldByte (canon_loop upper s) = true.
Proof.
  revert upper. induction s as [|c s IH]; intros upper; [done|].
  rewrite canon_loop_cons. simpl. rewrite !andb_true_iff.
  intros [Hc Hs]. split; [by apply canon_byte_valid | by apply IH].
Qed.

(** A canonical key is its own canonical form. *)
Lemma CanonicalMIMEHeaderKey_idem (s : string) :
  CanonicalMIMEHeaderKey (CanonicalMIMEHeaderKey s) = CanonicalMIMEHeaderKey s.
Proof.
  unfold CanonicalMIMEHeaderKey.
  destruct (all_bytes validHeaderFieldByte s) eqn:E.
  - by rewrite canon_loop_valid, canon_loop_idem.
  - by rewrite E.
Qed.
End canon_facts.

Module outbound_facts.
Import textproto.

Lemma lookup_Add (m : gmap string (list string)) (k v K : string) :
  Header.Add m k v !! K
  = if decide (CanonicalMIMEHeaderKey k = K) then Some (Header.values m K ++ [v])
    else m !! K.
Proof.
  unfold Header.Add. rewrite lookup_insert.
  by destruct (decide (CanonicalMIMEHeaderKey k = K)) as [->|].
Qed.

Lemma lookup_add_all (m : gmap string (list string)) (k K : string) vals :
  add_all m k vals !! K
  = if decide (CanonicalMIMEHeaderKey k = K ∧ vals ≠ [])
    then Some (Header.values m K ++ vals) else m !! K.
Proof.
  unfold add_all. revert m. induction vals as [|v vals IH]; intros m.
  - simpl. destruct (decide _) as [[_ Hne]|]; [by destruct Hne | done].
  - simpl. rewrite IH, lookup_Add, Header_facts.values_Add.
    destruct (decide (CanonicalMIMEHeaderKey k = K)) as [E|E].
    + destruct (decide (CanonicalMIMEHeaderKey k = K ∧ v :: vals ≠ []))
        as [_|Hn]; [|by destruct Hn].
      destruct (decide (CanonicalMIMEHeaderKey k = K ∧ vals ≠ [])) as [[_ Hv]|Hn].
      * by rewrite <- app_assoc.
      * destruct vals; [done|]. by destruct Hn.
    + destruct (decide (CanonicalMIMEHeaderKey k = K ∧ v :: vals ≠ []))
        as [[]|_]; [done|].
      by destruct (decide (CanonicalMIMEHeaderKey k = K ∧ vals ≠ [])) as [[]|_].
Qed.

Lemma lookup_copied (m : gmap string (list string)) entries (K : string) :
  copied m entries !! K
  = match captured_values entries K with
    | [] => m !! K
    | v :: vals => Some (Header.values m K ++ v :: vals)
    end.
Proof.
  unfold copied. revert m. induction entries as [|[k vals] entries IH]; intros m.
  - done.
  - simpl. rewrite IH, Header_facts.captured_values_cons. simpl.
    rewrite lookup_add_all, Header_facts.values_add_all.
    destruct (decide (CanonicalMIMEHeaderKey k = K)) as [E|E].
    + destruct vals as [|v vals]; simpl.
      * destruct (decide _) as [[_ Hne]|_]; [by destruct Hne|].
        by rewrite app_nil_r.
      * destruct (decide _) as [_|Hn]; [|by destruct Hn].
        destruct (captured_values entries K); simpl;
          by rewrite <- ?app_assoc, ?app_nil_r.
    + simpl. destruct (decide _) as [[]|_]; [done|]. by rewrite app_nil_r.
Qed.

Lemma outbound_headers_unfold entries :
  outbound_headers entries
  = <["X-Do-Not-Forward" := ["1"]]>
      (delete "Te" (delete "Upgrade" (delete "Connection" (copied ∅ entries)))).
Proof. reflexivity. Qed.

(** With canonical names the copy is the captured map without the names that
    have no value. *)
Lemma copied_canonical (order : MapRange) (h : gmap string (list string)) :
  canonical_names h →
  copied ∅ (range_of order h) = filter (λ e, e.2 ≠ []) h.
Proof.
  intros Hcan. apply map_eq. intros K.
  rewrite lookup_copied, Header_facts.captured_values_canonical by done.
  unfold Header.values.
  destruct (h !! K) as [[|v vals]|] eqn:E; simpl; symmetry.
  - apply map_lookup_filter_None. right. intros x. rewrite E. naive_solver.
  - by apply map_lookup_filter_Some.
  - apply map_lookup_filter_None. by left.
Qed.

Lemma well_formed_empty : well_formed_headers ∅.
Proof. intros name vals. by rewrite lookup_empty. Qed.

Lemma well_formed_Add m k v :
  well_formed_headers m → well_formed_headers (Header.Add m k v).
Proof.
  intros Hm name vals. rewrite lookup_Add.
  destruct (decide (CanonicalMIMEHeaderKey k = name)) as [<-|]; [|apply Hm].
  intros [= <-]. split; [apply canon_facts.CanonicalMIMEHeaderKey_idem|].
  by destruct (Header.values m (CanonicalMIMEHeaderKey k)).
Qed.

Lemma well_formed_copied m entries :
  well_formed_headers m → well_formed_headers (copied m entries).
Proof.
  unfold copied. revert m. induction entries as [|[k vals] entries IH]; intros m Hm;
    [done|].
  simpl. apply IH. unfold add_all. clear IH. revert m Hm.
  induction vals as [|v vals IH]; intros m Hm; [done|].
  simpl. by apply IH, well_formed_Add.
Qed.

Lemma well_formed_outbound entries : well_formed_headers (outbound_headers entries).
Proof.
  rewrite outbound_headers_unfold. intros name vals.
  rewrite lookup_insert. destruct (decide ("X-Do-Not-Forward" = name)) as [<-|].
  { by intros [= <-]. }
  rewrite !lookup_delete. repeat (case_decide; [done|]).
  apply well_formed_copied, well_formed_empty.
Qed.
End outbound_facts.

Section Forward_more.
Context (lib : GoLib) (order : MapRange).

(** The method that [http.NewRequest] puts in the request. *)
Lemma outbound_ok (r : RequestData) (u u' : url.URL) :
  http.validMethod (if bool_decide (Method r = "") then "GET" else Method r) = true →
  url_Parse lib (URL_String lib u) = inl u' →
  outbound lib order r u
  = inl {| http.Request.Method := if bool_decide (Method r = "") then "GET" else Method r;
           http.Request.URL := url.set_Host u' (removeEmptyPort lib (url.Host u'));
           http.Request.Header := outbound_headers (range_of order (Header r));
           http.Request.Body := Body r;
           http.Request.Host := removeEmptyPort lib (url.Host u') |}.
Proof. intros Hm Hu. unfold outbound. by rewrite Hm, Hu. Qed.

(** A request that is built goes to the client, once. *)
Lemma Forward_sends (σ : store) (req : loc) (r : RequestData) (client : Client)
    (config : BasketConfig) (basket : string) (u : url.URL) (q : http.Request.t) :
  points_to σ req r →
  url_ParseRequestURI lib (ForwardURL config) = inl u →
  outbound lib order r (forward_target r config basket u) = inl q →
  ∃ res σ',
    Forward lib order req client config basket σ = Ok (res, σ')
    ∧ wire σ' = wire σ ++ [q]
    ∧ res = match client q with
            | (_, Some err) => (Some (badGatewayResp err), None)
            | (response, None) => (response, None)
            end
    ∧ logs σ' = match client q with
                | (_, Some err) =>
                    logs σ ++ ["[warn] failed to forward request for basket: "
                               +:+ basket +:+ " - " +:+ err]
                | (_, None) => logs σ
                end.
Proof.
  intros Hr Hu Hq. rewrite (Forward_run lib order σ req r) by done.
  unfold forwarded. rewrite Hu, Hq.
  destruct (client q) as [response [err|]]; eexists _, _; done.
Qed.
End Forward_more.

(** X4. When the client returns no error, [Forward] returns the client's
    response itself with a [nil] error, after handing the client exactly one
    request, and logs nothing. *)
Theorem Forward_success (lib : GoLib) (order : MapRange) (σ : store) (req : loc)
    (r : RequestData) (client : Client) (config : BasketConfig) (basket : string)
    (u : url.URL) (q : http.Request.t) (response : option http.Response.t) :
  points_to σ req r →
  url_ParseRequestURI lib (ForwardURL config) = inl u →
  outbound lib order r (forward_target r config basket u) = inl q →
  client q = (response, None) →
  ∃ σ',
    Forward lib order req client config basket σ = Ok ((response, None), σ')
    ∧ wire σ' = wire σ ++ [q]
    ∧ logs σ' = logs σ.
Proof.
  intros Hr Hu Hq Hok.
  destruct (Forward_sends lib order σ req r client config basket u q Hr Hu Hq)
    as (res & σ' & Hrun & Hwire & Hres & Hlogs).
  rewrite Hok in Hres, Hlogs. subst res. eauto.
Qed.

Lemma Forward_success_witness :
  ∃ resp σ',
    Forward scenario_lib listed_order 1%positive ok_client expanding_config "b1"
      (captured_store "GET" "/b1/y/z" "k=1" "" browser_headers)
    = Ok ((Some resp, None), σ')
    ∧ http.Response.StatusCode resp = 200
    ∧ logs σ' = [].
Proof.
  edestruct (Forward_success scenario_lib listed_order
              (captured_store "GET" "/b1/y/z" "k=1" "" browser_headers) 1%positive
              (captured "GET" "/b1/y/z" "k=1" "" browser_headers)
              ok_client expanding_config "b1" (http_url "up" "/x/" ""))
    as (σ' & Hrun & _ & Hlogs);
    [reflexivity | reflexivity | reflexivity | reflexivity |].
  eexists _, σ'. split; [exact Hrun|]. split; [reflexivity | exact Hlogs].
Defined.

(** X5. When [http.NewRequest] fails, because the captured method is not
    empty and not a token or because the printed target does not parse,
    [Forward] returns no response and an error that starts with
    [failed to create forward request: ]; nothing is sent, logged or
    stored. *)
Theorem Forward_request_not_created (lib : GoLib) (order : MapRange) (σ : store)
    (req : loc) (r : RequestData) (client : Client) (config : BasketConfig)
    (basket : string) (u : url.URL) :
  points_to σ req r →
  url_ParseRequestURI lib (ForwardURL config) = inl u →
  (Method r ≠ "" ∧ http.validMethod (Method r) = false)
  ∨ (∃ e, url_Parse lib (URL_String lib (forward_target r config basket u)) = inr e) →
  ∃ e,
    Forward lib order req client config basket σ
    = Ok ((None, Some ("failed to create forward request: " +:+ e)), σ).
Proof.
  intros Hr Hu Hbad. rewrite (Forward_run lib order σ req r) by done.
  unfold forwarded. rewrite Hu. unfold outbound.
  destruct Hbad as [[Hne Hm] | [e He]].
  - rewrite bool_decide_eq_false_2 by done. rewrite Hm. simpl. eauto.
  - destruct (negb _); [eauto|]. rewrite He. eauto.
Qed.

Lemma Forward_request_not_created_witness :
  ∃ e,
    Forward scenario_lib listed_order 1%positive ok_client expanding_config "b1"
      (captured_store "GE T" "/b1/y/z" "k=1" "" browser_headers)
    = Ok ((None, Some ("failed to create forward request: " +:+ e)),
          captured_store "GE T" "/b1/y/z" "k=1" "" browser_headers).
Proof.
  apply (Forward_request_not_created scenario_lib listed_order
           (captured_store "GE T" "/b1/y/z" "k=1" "" browser_headers) 1%positive
           (captured "GE T" "/b1/y/z" "k=1" "" browser_headers)
           ok_client expanding_config "b1" (http_url "up" "/x/" ""));
    [reflexivity | reflexivity | left; split; [discriminate | reflexivity]].
Defined.

(** X6. A record with an empty method is forwarded as GET, with its body. *)
Theorem Forward_empty_method (lib : GoLib) (order : MapRange) (σ : store)
    (req : loc) (r : RequestData) (client : Client) (config : BasketConfig)
    (basket : string) (u u' : url.URL) :
  points_to σ req r →
  url_ParseRequestURI lib (ForwardURL config) = inl u →
  Method r = "" →
  url_Parse lib (URL_String lib (forward_target r config basket u)) = inl u' →
  ∃ q res σ',
    Forward lib order req client config basket σ = Ok (res, σ')
    ∧ wire σ' = wire σ ++ [q]
    ∧ http.Request.Method q = "GET"
    ∧ http.Request.Body q = Body r.
Proof.
  intros Hr Hu Hm Hu'.
  pose proof (outbound_ok lib order r (forward_target r config basket u) u') as Hq.
  rewrite Hm in Hq. specialize (Hq eq_refl Hu').
  destruct (Forward_sends lib order σ req r client config basket u _ Hr Hu Hq)
    as (res & σ' & Hrun & Hwire & _).
  eexists _, res, σ'. split; [exact Hrun|]. split; [exact Hwire|]. done.
Qed.

Lemma Forward_empty_method_witness :
  ∃ q res σ',
    Forward scenario_lib listed_order 1%positive ok_client expanding_config "b1"
      (captured_store "" "/b1/y/z" "k=1" "" browser_headers)
    = Ok (res, σ')
    ∧ wire σ' = [q]
    ∧ http.Request.Method q = "GET".
Proof.
  destruct (Forward_empty_method scenario_lib listed_order
              (captured_store "" "/b1/y/z" "k=1" "" browser_headers) 1%positive
              (captured "" "/b1/y/z" "k=1" "" browser_headers)
              ok_client expanding_config "b1" (http_url "up" "/x/" "")
              (http_url "up" "/x/y/z" "k=1"))
    as (q & res & σ' & Hrun & Hwire & Hmethod & _);
    [reflexivity | reflexivity | reflexivity | reflexivity |].
  exists q, res, σ'. split; [exact Hrun|]. split; [exact Hwire | exact Hmethod].
Defined.

(** X7. For canonical header names, the header map of the request sent is
    the captured map without the names that have no value and without
    Connection, Upgrade and Te, with X-Do-Not-Forward set to the single
    value 1. *)
Theorem Forward_header_map (lib : GoLib) (order : MapRange) (σ : store)
    (req : loc) (r : RequestData) (client : Client) (config : BasketConfig)
    (basket : string) (u u' : url.URL) :
  points_to σ req r →
  url_ParseRequestURI lib (ForwardURL config) = inl u →
  http.validMethod (Method r) = true →
  url_Parse lib (URL_String lib (forward_target r config basket u)) = inl u' →
  canonical_names (Header r) →
  ∃ q res σ',
    Forward lib order req client config basket σ = Ok (res, σ')
    ∧ wire σ' = wire σ ++ [q]
    ∧ http.Request.Header q
      = <["X-Do-Not-Forward" := ["1"]]>
          (delete "Te" (delete "Upgrade" (delete "Connection"
             (filter (λ e, e.2 ≠ []) (Header r))))).
Proof.
  intros Hr Hu Hm Hu' Hcan.
  assert (Method r ≠ "") as Hne by (intros E; by rewrite E in Hm).
  pose proof (outbound_ok lib order r (forward_target r config basket u) u') as Hq.
  rewrite bool_decide_eq_false_2 in Hq by done. specialize (Hq Hm Hu').
  destruct (Forward_sends lib order σ req r client config basket u _ Hr Hu Hq)
    as (res & σ' & Hrun & Hwire & _).
  eexists _, res, σ'. split; [exact Hrun|]. split; [exact Hwire|]. simpl.
  by rewrite outbound_facts.outbound_headers_unfold, outbound_facts.copied_canonical.
Qed.

Lemma Forward_header_map_witness :
  ∃ q res σ',
    Forward scenario_lib listed_order 1%positive ok_client expanding_config "b1"
      (captured_store "GET" "/b1/y/z" "k=1" "" browser_headers)
    = Ok (res, σ')
    ∧ wire σ' = [q]
    ∧ http.Request.Header q
      = {[ "Accept" := ["text/html"; "*/*"]; "X-Do-Not-Forward" := ["1"] ]}.
Proof.
  destruct (Forward_header_map scenario_lib listed_order
              (captured_store "GET" "/b1/y/z" "k=1" "" browser_headers) 1%positive
              (captured "GET" "/b1/y/z" "k=1" "" browser_headers)
              ok_client expanding_config "b1" (http_url "up" "/x/" "")
              (http_url "up" "/x/y/z" "k=1"))
    as (q & res & σ' & Hrun & Hwire & Hheader);
    [reflexivity | reflexivity | reflexivity | reflexivity
    | by apply canonical_names_checked; vm_compute |].
  exists q, res, σ'. split; [exact Hrun|]. split; [exact Hwire|].
  rewrite Hheader. reflexivity.
Defined.

(** X8. Whatever the captured headers, every request that [Forward] hands
    to the client has canonical header names, each with at least one value,
    carries X-Do-Not-Forward: 1 and has no Connection, Upgrade or Te
    header. *)
Theorem Forward_headers_well_formed (lib : GoLib) (order : MapRange) (σ : store)
    (req : loc) (r : RequestData) (client : Client) (config : BasketConfig)
    (basket : string) :
  points_to σ req r →
  ∃ res σ',
    Forward lib order req client config basket σ = Ok (res, σ')
    ∧ ∀ q, q ∈ wire σ' → q ∈ wire σ ∨
        (well_formed_headers (http.Request.Header q)
         ∧ http.Request.Header q !! "X-Do-Not-Forward" = Some ["1"]
         ∧ http.Request.Header q !! "Connection" = None
         ∧ http.Request.Header q !! "Upgrade" = None
         ∧ http.Request.Header q !! "Te" = None).
Proof.
  intros Hr. rewrite (Forward_run lib order σ req r) by done.
  unfold forwarded.
  destruct (url_ParseRequestURI lib (ForwardURL config)) as [u|e];
    [|eexists _, _; split; [done|]; auto].
  destruct (outbound lib order r (forward_target r config basket u)) as [q0|e] eqn:Hq;
    [|eexists _, _; split; [done|]; auto].
  assert (well_formed_headers (http.Request.Header q0)
          ∧ http.Request.Header q0 !! "X-Do-Not-Forward" = Some ["1"]
          ∧ http.Request.Header q0 !! "Connection" = None
          ∧ http.Request.Header q0 !! "Upgrade" = None
          ∧ http.Request.Header q0 !! "Te" = None) as Hgood.
  { revert Hq. unfold outbound. destruct (negb _); [done|].
    destruct (url_Parse lib _); [|done]. intros [= <-]. simpl.
    split; [apply outbound_facts.well_formed_outbound|].
    rewrite outbound_facts.outbound_headers_unfold.
    by rewrite lookup_insert_eq, !lookup_insert_ne, !lookup_delete by done. }
  destruct (client q0) as [response [err|]]; eexists _, _; (split; [done|]);
    intros q; simpl; rewrite elem_of_app, list_elem_of_singleton;
    intros [?| ->]; auto.
Qed.

Lemma Forward_headers_well_formed_witness :
  ∃ res σ',
    Forward scenario_lib listed_order 1%positive ok_client expanding_config "b1"
      (captured_store "GET" "/b1/y/z" "k=1" ""
         {[ "accept" := ["text/html"]; "X-Empty" := [] ]})
    = Ok (res, σ')
    ∧ ∀ q, q ∈ wire σ' → well_formed_headers (http.Request.Header q).
Proof.
  destruct (Forward_headers_well_formed scenario_lib listed_order
              (captured_store "GET" "/b1/y/z" "k=1" ""
                 {[ "accept" := ["text/html"]; "X-Empty" := [] ]})
              1%positive
              (captured "GET" "/b1/y/z" "k=1" ""
                 {[ "accept" := ["text/html"]; "X-Empty" := [] ]})
              ok_client expanding_config "b1")
    as (res & σ' & Hrun & Hall); [reflexivity|].
  exists res, σ'. split; [exact Hrun|].
  intros q Hq. destruct (Hall q Hq) as [Hold | [Hwf _]]; [|exact Hwf].
  exfalso. change (q ∈ @nil http.Request.t) in Hold. inversion Hold.
Defined.

(** X9. [forwardHeadersCleanup] leaves a sub-map of the header map: the
    names Connection, Upgrade and Te are absent, every other name has its
    values as before, and a second clean-up changes nothing. *)
Theorem forwardHeadersCleanup_removes (σ : store) (q : RequestObj)
    (m : gmap string (list string)) :
  maps σ !! new_Header q = Some m →
  ∃ m',
    forwardHeadersCleanup q σ = Ok ((), set_map (new_Header q) m' σ)
    ∧ m' ⊆ m
    ∧ (∀ name, name ∉ ["Connection"; "Upgrade"; "Te"] → m' !! name = m !! name)
    ∧ (∀ name, name ∈ ["Connection"; "Upgrade"; "Te"] → m' !! name = None)
    ∧ forwardHeadersCleanup q (set_map (new_Header q) m' σ)
      = Ok ((), set_map (new_Header q) m' σ).
Proof.
  intros Hm. exists (delete "Te" (delete "Upgrade" (delete "Connection" m))).
  assert (∀ m0, forwardHeadersCleanup q (set_map (new_Header q) m0 σ)
    = Ok ((), set_map (new_Header q)
                (delete "Te" (delete "Upgrade" (delete "Connection" m0))) σ)) as Hrun.
  { intros m0. unfold forwardHeadersCleanup, bind.
    by rewrite !update_map_set_map. }
  split; [|split; [|split; [|split]]].
  - unfold forwardHeadersCleanup, bind. unfold update_map at 1. rewrite Hm.
    by rewrite !update_map_set_map.
  - etrans; [apply delete_subseteq|]. etrans; apply delete_subseteq.
  - intros name Hname. rewrite !lookup_delete_ne; [done|intros <-; set_solver..].
  - intros name Hname.
    apply elem_of_cons in Hname as [->|Hname].
    { by rewrite !lookup_delete_ne, lookup_delete_eq by done. }
    apply elem_of_cons in Hname as [->|Hname].
    { by rewrite lookup_delete_ne, lookup_delete_eq by done. }
    apply list_elem_of_singleton in Hname as ->. by rewrite lookup_delete_eq.
  - rewrite Hrun. do 2 f_equal. f_equal.
    apply map_eq. intros name. rewrite !lookup_delete. by repeat case_decide.
Qed.

Lemma forwardHeadersCleanup_removes_witness :
  ∃ m',
    forwardHeadersCleanup
      {| new_Method := "GET"; new_URL := http_url "up" "/x/" "";
         new_Header := 2%positive; new_Body := ""; new_Host := "up" |}
      (captured_store "GET" "/b1" "" "" browser_headers)
    = Ok ((), set_map 2%positive m' (captured_store "GET" "/b1" "" "" browser_headers))
    ∧ m' !! "Connection" = None
    ∧ m' !! "Accept" = Some ["text/html"; "*/*"].
Proof.
  destruct (forwardHeadersCleanup_removes
              (captured_store "GET" "/b1" "" "" browser_headers)
              {| new_Method := "GET"; new_URL := http_url "up" "/x/" "";
                 new_Header := 2%positive; new_Body := ""; new_Host := "up" |}
              browser_headers)
    as (m' & Hrun & _ & Hkept & Hgone & _); [reflexivity|].
  exists m'. split; [exact Hrun|]. split.
  - apply Hgone. constructor.
  - rewrite Hkept; [reflexivity|].
    rewrite !elem_of_cons, elem_of_nil. intros [?|[?|[?|[]]]]; discriminate.
Defined.

(** X10. [expandURL] joins the forward path and the rest of the request
    path with a single slash: for a forward path [p] that does not end in a
    slash, [p] and [p/] both give [p] followed by what comes after
    [/basket] in the request path; a request path that does not start with
    [/basket] is appended whole. *)
Theorem expandURL_joins (p rest basket : string) :
  (¬ ∃ t, p = t +:+ "/") →
  expandURL p ("/" +:+ basket +:+ rest) basket = p +:+ rest
  ∧ expandURL (p +:+ "/") ("/" +:+ basket +:+ rest) basket = p +:+ rest
  ∧ ∀ original, (¬ ∃ t, original = ("/" +:+ basket) +:+ t) →
      expandURL p original basket = p +:+ original.
Proof.
  intros Hp. unfold expandURL.
  assert ("/" +:+ basket +:+ rest = ("/" +:+ basket) +:+ rest) as ->
    by (by rewrite strings_facts.app_assoc).
  rewrite strings_facts.TrimPrefix_app, strings_facts.TrimSuffix_app.
  rewrite strings_facts.TrimSuffix_other by done.
  split; [done|]. split; [done|].
  intros original Ho. by rewrite strings_facts.TrimPrefix_other.
Qed.

Lemma expandURL_joins_witness :
  expandURL "/x" "/b1/y/z" "b1" = "/x/y/z"
  ∧ expandURL "/x/" "/b1/y/z" "b1" = "/x/y/z"
  ∧ expandURL "/x" "/other/y" "b1" = "/x/other/y".
Proof.
  destruct (expandURL_joins "/x" "/y/z" "b1") as (H1 & H2 & H3).
  { rewrite <- strings_facts.HasSuffix_spec. discriminate. }
  split; [exact H1|]. split; [exact H2|].
  apply (H3 "/other/y").
  rewrite <- (strings_facts.HasPrefix_spec "/other/y" "/b1"). discriminate.
Defined.

(** X11. The result of [Matches] does not depend on the order in which
    [range] visits the headers. *)
Theorem Matches_any_order (order1 order2 : MapRange) (r : RequestData) (q s : string) :
  Matches order1 r q s = Matches order2 r q s.
Proof.
  assert (match_headers q (range_of order1 (Header r))
          = match_headers q (range_of order2 (Header r))) as Hh.
  { apply eq_true_iff_eq. by rewrite !match_headers_range. }
  destruct (decide (s = "body")) as [->|Hb]; [by rewrite !Matches_body|].
  destruct (decide (s = "query")) as [->|Hq]; [by rewrite !Matches_query|].
  destruct (decide (s = "headers")) as [->|Hhd]; [by rewrite !Matches_headers|].
  by rewrite !Matches_default, Hh.
Qed.

(** ** The counters of the statistics *)

Section counters.
Context (cap : Z).

Lemma Collect_step (s : DatabaseStats.t) (x : BasketInfo.t) (K : Z) :
  0 ≤ K ≤ cap →
  clean (DatabaseStats.TopBasketsBySize s) → clean (DatabaseStats.TopBasketsByDate s) →
  ∃ s', Collect cap s x K = Ok s'
    ∧ clean (DatabaseStats.TopBasketsBySize s')
    ∧ clean (DatabaseStats.TopBasketsByDate s')
    ∧ DatabaseStats.BasketsCount s' = goint.add (DatabaseStats.BasketsCount s) 1
    ∧ DatabaseStats.EmptyBasketsCount s'
      = (if BasketInfo.RequestsTotalCount x =? 0
         then goint.add (DatabaseStats.EmptyBasketsCount s) 1
         else DatabaseStats.EmptyBasketsCount s)
    ∧ DatabaseStats.RequestsCount s'
      = goint.add (DatabaseStats.RequestsCount s) (BasketInfo.RequestsCount x)
    ∧ DatabaseStats.RequestsTotalCount s'
      = goint.add (DatabaseStats.RequestsTotalCount s) (BasketInfo.RequestsTotalCount x)
    ∧ DatabaseStats.MaxBasketSize s'
      = Z.max (DatabaseStats.MaxBasketSize s) (BasketInfo.RequestsTotalCount x)
    ∧ DatabaseStats.AvgBasketSize s' = DatabaseStats.AvgBasketSize s.
Proof.
  intros HK H1 H2.
  destruct (collectConditionally_clean cap x K (by_key BasketInfo.RequestsTotalCount)
    _ HK H1) as (t1 & Ht1 & Hc1).
  destruct (collectConditionally_clean cap x K (by_key BasketInfo.LastRequestDate)
    _ HK H2) as (t2 & Ht2 & Hc2).
  rewrite (Collect_unfold cap s x K t1 t2 Ht1 Ht2). eexists. split; [done|]. simpl.
  repeat (split; [done|]). split; [|done].
  destruct (BasketInfo.RequestsTotalCount x >? DatabaseStats.MaxBasketSize s) eqn:E; lia.
Qed.

Lemma add_exact (a b : Z) :
  0 ≤ a → 0 ≤ b → a + b ≤ goint.max_int → goint.add a b = a + b.
Proof.
  intros. apply goint_facts.wrap64_id.
  unfold goint.in_range, goint.min_int, goint.max_int in *. lia.
Qed.

Lemma total_of_nonneg f l : Forall (λ b, 0 ≤ f b) l → 0 ≤ total_of f l.
Proof. induction 1; simpl; lia. Qed.

Lemma collect_all_from (K : Z) (l : list BasketInfo.t) (s : DatabaseStats.t) :
  0 ≤ K ≤ cap →
  clean (DatabaseStats.TopBasketsBySize s) → clean (DatabaseStats.TopBasketsByDate s) →
  counts_ok l →
  0 ≤ DatabaseStats.EmptyBasketsCount s ≤ DatabaseStats.BasketsCount s →
  0 ≤ DatabaseStats.RequestsCount s → 0 ≤ DatabaseStats.RequestsTotalCount s →
  0 ≤ DatabaseStats.MaxBasketSize s →
  DatabaseStats.BasketsCount s + Z.of_nat (length l) ≤ goint.max_int →
  DatabaseStats.RequestsCount s + total_of BasketInfo.RequestsCount l ≤ goint.max_int →
  DatabaseStats.RequestsTotalCount s + total_of BasketInfo.RequestsTotalCount l
    ≤ goint.max_int →
  ∃ s', collect_all cap s l K = Ok s'
    ∧ DatabaseStats.BasketsCount s' = DatabaseStats.BasketsCount s + Z.of_nat (length l)
    ∧ DatabaseStats.EmptyBasketsCount s'
      = DatabaseStats.EmptyBasketsCount s + empty_baskets l
    ∧ DatabaseStats.RequestsCount s'
      = DatabaseStats.RequestsCount s + total_of BasketInfo.RequestsCount l
    ∧ DatabaseStats.RequestsTotalCount s'
      = DatabaseStats.RequestsTotalCount s + total_of BasketInfo.RequestsTotalCount l
    ∧ DatabaseStats.MaxBasketSize s'
      = Z.max (DatabaseStats.MaxBasketSize s) (greatest BasketInfo.RequestsTotalCount l)
    ∧ DatabaseStats.AvgBasketSize s' = DatabaseStats.AvgBasketSize s.
Proof.
  intros HK. revert s.
  induction l as [|x l IH]; intros s Hc1 Hc2 Hok Hebc Hrc Hrtc Hmx Hn Hsrc Hsrtc.
  - exists s. unfold empty_baskets. simpl.
    repeat split; try lia.
  - destruct (Collect_step s x K HK Hc1 Hc2)
      as (s1 & E1 & Hs1 & Hd1 & Hbc1 & Hebc1 & Hrc1 & Hrtc1 & Hmax1 & Havg1).
    apply Forall_cons in Hok as [[Hx1 Hx2] Hok].
    pose proof (total_of_nonneg BasketInfo.RequestsCount l) as Hp1.
    pose proof (total_of_nonneg BasketInfo.RequestsTotalCount l) as Hp2.
    assert (0 ≤ total_of BasketInfo.RequestsCount l) as Hq1.
    { apply Hp1. eapply Forall_impl; [exact Hok|]. by intros ? [? ?]. }
    assert (0 ≤ total_of BasketInfo.RequestsTotalCount l) as Hq2.
    { apply Hp2. eapply Forall_impl; [exact Hok|]. by intros ? [? ?]. }
    clear Hp1 Hp2. simpl in Hn, Hsrc, Hsrtc.
    rewrite add_exact in Hbc1 by lia.
    rewrite add_exact in Hrc1 by lia.
    rewrite add_exact in Hrtc1 by lia.
    assert (DatabaseStats.EmptyBasketsCount s1
            = DatabaseStats.EmptyBasketsCount s
              + (if decide (BasketInfo.RequestsTotalCount x = 0) then 1 else 0))
      as Hebc1'.
    { rewrite Hebc1. destruct (decide (BasketInfo.RequestsTotalCount x = 0)) as [E|E].
      - rewrite E. simpl. apply add_exact; lia.
      - assert ((BasketInfo.RequestsTotalCount x =? 0) = false) as -> by lia. lia. }
    destruct (IH s1 Hs1 Hd1 Hok)
      as (s' & E' & Hbc' & Hebc' & Hrc' & Hrtc' & Hmax' & Havg').
    { rewrite Hbc1, Hebc1'. destruct (decide _); lia. }
    { lia. } { lia. } { lia. } { lia. } { lia. } { lia. }
    exists s'. simpl. rewrite E1. simpl. split; [done|].
    split; [lia|]. split.
    { rewrite Hebc', Hebc1'. unfold empty_baskets. rewrite filter_cons.
      destruct (decide (BasketInfo.RequestsTotalCount x = 0)); simpl; lia. }
    split; [lia|]. split; [lia|]. split; [|congruence].
    rewrite Hmax', Hmax1. lia.
Qed.

(** [Collect] panics only in [make], which only the first snapshot
    reaches. *)
Lemma collect_all_ok (K : Z) (l : list BasketInfo.t) (s : DatabaseStats.t) :
  0 ≤ K ≤ cap →
  clean (DatabaseStats.TopBasketsBySize s) → clean (DatabaseStats.TopBasketsByDate s) →
  ∃ s', collect_all cap s l K = Ok s'.
Proof.
  intros HK. revert s. induction l as [|x l IH]; intros s Hc1 Hc2; simpl; [eauto|].
  destruct (Collect_step s x K HK Hc1 Hc2) as (s1 & -> & Hs1 & Hd1 & _). simpl.
  by apply IH.
Qed.

Lemma greatest_nonneg f l : 0 ≤ greatest f l.
Proof. induction l; simpl; lia. Qed.

(** The sum of the counts is at most the number of counts that are not
    zero times the greatest. *)
Lemma total_of_bound l :
  counts_ok l →
  total_of BasketInfo.RequestsTotalCount l
  ≤ (Z.of_nat (length l) - empty_baskets l) * greatest BasketInfo.RequestsTotalCount l.
Proof.
  unfold empty_baskets.
  induction 1 as [|x l [_ Hx] Hl IH]; simpl; [lia|].
  rewrite filter_cons.
  pose proof (greatest_nonneg BasketInfo.RequestsTotalCount l) as Hg.
  pose proof (length_filter (λ b, BasketInfo.RequestsTotalCount b = 0) l) as Hf.
  destruct (decide (BasketInfo.RequestsTotalCount x = 0)) as [E|E]; simpl.
  - rewrite E. rewrite Z.max_r by lia. lia.
  - destruct (Z.max_spec (BasketInfo.RequestsTotalCount x)
                (greatest BasketInfo.RequestsTotalCount l)) as [[? ->]|[? ->]]; nia.
Qed.

Lemma empty_baskets_bound l : 0 ≤ empty_baskets l ≤ Z.of_nat (length l).
Proof.
  unfold empty_baskets.
  pose proof (length_filter (λ b, BasketInfo.RequestsTotalCount b = 0) l). lia.
Qed.
End counters.

Section insert_more.
Context {A : Type} (greater : A → A → bool).

Lemma insert_desc_last (x : A) (l : list A) :
  (∀ b, b ∈ l → greater x b = false) → insert_desc greater x l = l ++ [x].
Proof.
  induction l as [|b l IH]; intros H; simpl; [done|].
  rewrite (H b) by left. f_equal. apply IH. intros b' Hb'. apply H. by right.
Qed.
End insert_more.

(** X12. The counters after collecting snapshots with counts that are not
    negative, from the zero statistics and without overflow of the sums:
    the number of snapshots, the number of those with no request ever, the
    sums of the two counts, and the greatest total count; the average stays
    0 until [UpdateAvarage] is called. The bound is one that [make] accepts;
    it has no influence on the counters. *)
Theorem collect_all_totals (cap K : Z) (l : list BasketInfo.t) :
  0 ≤ K ≤ cap →
  counts_ok l →
  Z.of_nat (length l) ≤ goint.max_int →
  total_of BasketInfo.RequestsCount l ≤ goint.max_int →
  total_of BasketInfo.RequestsTotalCount l ≤ goint.max_int →
  ∃ s, collect_all cap DatabaseStats.zero l K = Ok s
    ∧ DatabaseStats.BasketsCount s = Z.of_nat (length l)
    ∧ DatabaseStats.EmptyBasketsCount s = empty_baskets l
    ∧ DatabaseStats.RequestsCount s = total_of BasketInfo.RequestsCount l
    ∧ DatabaseStats.RequestsTotalCount s = total_of BasketInfo.RequestsTotalCount l
    ∧ DatabaseStats.MaxBasketSize s = greatest BasketInfo.RequestsTotalCount l
    ∧ DatabaseStats.AvgBasketSize s = 0.
Proof.
  intros HK Hok Hn Hrc Hrtc.
  destruct (collect_all_from cap K l DatabaseStats.zero HK)
    as (s & Es & Hbc & Hebc & Hrc' & Hrtc' & Hmax & Havg);
    [by intros ?|by intros ?|done|simpl; lia..|].
  simpl in *. exists s. split; [done|].
  pose proof (greatest_nonneg BasketInfo.RequestsTotalCount l).
  repeat split; lia.
Qed.

Lemma collect_all_totals_witness :
  ∃ s,
    collect_all amd64_max_slice_cap DatabaseStats.zero
      [snapshot "a" 3 10; snapshot "b" 0 0; snapshot "c" 5 30] 2 = Ok s
    ∧ DatabaseStats.BasketsCount s = 3
    ∧ DatabaseStats.EmptyBasketsCount s = 1
    ∧ DatabaseStats.RequestsTotalCount s = 8
    ∧ DatabaseStats.MaxBasketSize s = 5.
Proof.
  destruct (collect_all_totals amd64_max_slice_cap 2
              [snapshot "a" 3 10; snapshot "b" 0 0; snapshot "c" 5 30])
    as (s & Hrun & Hbc & Hebc & _ & Hrtc & Hmax & _);
    [by vm_compute
    | by repeat (constructor; [by vm_compute|])
    | by vm_compute | by vm_compute | by vm_compute |].
  exists s. split; [exact Hrun|]. split; [exact Hbc|]. split; [exact Hebc|].
  split; [exact Hrtc | exact Hmax].
Defined.

(** X13. After collecting such snapshots, [UpdateAvarage] does not panic
    and the average it stores lies between 0 and the greatest basket
    size. *)
Theorem average_at_most_greatest (cap K : Z) (l : list BasketInfo.t) :
  0 ≤ K ≤ cap →
  counts_ok l →
  Z.of_nat (length l) ≤ goint.max_int →
  total_of BasketInfo.RequestsCount l ≤ goint.max_int →
  total_of BasketInfo.RequestsTotalCount l ≤ goint.max_int →
  ∃ s s', collect_all cap DatabaseStats.zero l K = Ok s
    ∧ UpdateAvarage s = Ok s'
    ∧ 0 ≤ DatabaseStats.AvgBasketSize s' ≤ DatabaseStats.MaxBasketSize s'
    ∧ DatabaseStats.MaxBasketSize s' = greatest BasketInfo.RequestsTotalCount l.
Proof.
  intros HK Hok Hn Hrc Hrtc.
  destruct (collect_all_from cap K l DatabaseStats.zero HK)
    as (s & Es & Hbc & Hebc & Hrc' & Hrtc' & Hmax & Havg);
    [by intros ?|by intros ?|done|simpl; lia..|].
  simpl in *.
  pose proof (greatest_nonneg BasketInfo.RequestsTotalCount l) as Hg.
  pose proof (empty_baskets_bound l) as He.
  pose proof (total_of_bound l Hok) as Hb.
  assert (0 ≤ total_of BasketInfo.RequestsTotalCount l) as Hpos.
  { apply total_of_nonneg. eapply Forall_impl; [exact Hok|]. by intros ? [? ?]. }
  rewrite Z.max_r in Hmax by done.
  exists s.
  unfold UpdateAvarage.
  destruct (DatabaseStats.BasketsCount s >? DatabaseStats.EmptyBasketsCount s) eqn:E.
  - apply Z.gtb_lt in E.
    unfold goint.sub. rewrite goint_facts.wrap64_id.
    2:{ unfold goint.in_range, goint.min_int, goint.max_int in *. lia. }
    assert ((DatabaseStats.BasketsCount s - DatabaseStats.EmptyBasketsCount s =? 0) = false)
      as -> by lia.
    eexists. split; [done|]. split; [done|]. simpl. split; [|done].
    unfold goint.quo. rewrite goint_facts.wrap64_id.
    2:{ apply goint_facts.quot_range; [|lia].
        unfold goint.in_range, goint.min_int, goint.max_int in *. lia. }
    rewrite Hrtc', Hbc, Hebc, Hmax.
    rewrite Z.quot_div_nonneg by lia.
    split; [apply Z.div_pos; lia|].
    apply Z.div_le_upper_bound; lia.
  - eexists. split; [done|]. split; [done|]. simpl. lia.
Qed.

Lemma average_at_most_greatest_witness :
  ∃ s s',
    collect_all amd64_max_slice_cap DatabaseStats.zero
      [snapshot "a" 3 10; snapshot "b" 0 0; snapshot "c" 5 30] 2 = Ok s
    ∧ UpdateAvarage s = Ok s'
    ∧ 0 ≤ DatabaseStats.AvgBasketSize s' ≤ 5.
Proof.
  destruct (average_at_most_greatest amd64_max_slice_cap 2
              [snapshot "a" 3 10; snapshot "b" 0 0; snapshot "c" 5 30])
    as (s & s' & Hrun & Havg & Hle & Hmax);
    [by vm_compute
    | by repeat (constructor; [by vm_compute|])
    | by vm_compute | by vm_compute | by vm_compute |].
  exists s, s'. split; [exact Hrun|]. split; [exact Havg|].
  rewrite Hmax in Hle. exact Hle.
Defined.

(** X14. Collecting from the zero statistics panics exactly when there is
    a snapshot to collect and the bound is negative or above the capacity
    that [make] accepts: the only panic is the one of [make] at the first
    snapshot. (Running out of memory is no panic and is not modelled.) *)
Theorem collect_all_panics_iff (cap K : Z) (l : list BasketInfo.t) :
  collect_all cap DatabaseStats.zero l K = Panic ↔ l ≠ [] ∧ (K < 0 ∨ cap < K).
Proof.
  split.
  - intros HP. split; [by intros ->|].
    destruct (decide (0 ≤ K ≤ cap)) as [HK|HK]; [|lia].
    destruct (collect_all_ok cap K l DatabaseStats.zero HK) as (s & Es);
      [by intros ?..|]. congruence.
  - intros [Hl HK]. destruct l as [|x l]; [done|]. simpl.
    unfold Collect, collectConditionally. simpl.
    by assert ((K <? 0) || (cap <? K) = true) as -> by lia.
Qed.

(** X15. The bound 0 gives the statistics of the bound 1: the first
    snapshot is stored whatever the bound, and a list of one element is
    never extended under either bound. *)
Theorem collect_all_bound_zero (cap : Z) (l : list BasketInfo.t) :
  1 ≤ cap →
  collect_all cap DatabaseStats.zero l 0 = collect_all cap DatabaseStats.zero l 1.
Proof.
  intros Hcap.
  assert (∀ (g : BasketInfo.t → BasketInfo.t → bool) x L, (length L ≤ 1)%nat →
            collectConditionally cap x 0 g (slice_of L)
            = collectConditionally cap x 1 g (slice_of L)) as Hcc.
  { intros g x [|b [|b' L]] HL; [| |simpl in HL; lia].
    - unfold slice_of. by rewrite !collectConditionally_nil by lia.
    - unfold slice_of. by rewrite !collectConditionally_spec. }
  assert (∀ seen s,
    DatabaseStats.TopBasketsBySize s
      = slice_of (top_k (by_key BasketInfo.RequestsTotalCount) (Z.to_nat 1) seen) →
    DatabaseStats.TopBasketsByDate s
      = slice_of (top_k (by_key BasketInfo.LastRequestDate) (Z.to_nat 1) seen) →
    collect_all cap s l 0 = collect_all cap s l 1) as Hall.
  { induction l as [|x l IH]; intros seen s Hsize Hdate; simpl; [done|].
    assert (Collect cap s x 0 = Collect cap s x 1) as ->.
    { unfold Collect. rewrite Hsize, Hdate.
      rewrite !(Hcc _ x) by (rewrite top_k_length; lia). done. }
    destruct (Collect_tops cap 1 ltac:(lia) s x seen Hsize Hdate)
      as (s1 & -> & Hsize1 & Hdate1).
    simpl. by apply (IH (seen ++ [x])). }
  by apply (Hall []).
Qed.

Lemma collect_all_bound_zero_witness :
  collect_all amd64_max_slice_cap DatabaseStats.zero
    [snapshot "a" 3 10; snapshot "b" 7 20] 0
  = collect_all amd64_max_slice_cap DatabaseStats.zero
      [snapshot "a" 3 10; snapshot "b" 7 20] 1.
Proof.
  apply collect_all_bound_zero. by vm_compute.
Defined.

(** X16. [collectConditionally] on a list that is not [nil] and holds no
    [nil] pointer does not panic, whatever the bound, also a negative one or
    one below the length of the list: the list grows by one when it is
    shorter than the bound and keeps its length otherwise, its elements are
    among the old ones and the new snapshot, and a snapshot that is greater
    than none of the list leaves a list at or over its bound as it is. *)
Theorem collectConditionally_keeps (cap K : Z) (x : BasketInfo.t)
    (greater : BasketInfo.t → BasketInfo.t → bool) (l : list BasketInfo.t) :
  ∃ l', collectConditionally cap x K greater (Some (Some <$> l)) = Ok (Some (Some <$> l'))
    ∧ length l' = (if decide (Z.of_nat (length l) < K) then S (length l) else length l)
    ∧ l' ⊆+ x :: l
    ∧ (K ≤ Z.of_nat (length l) → (∀ b, b ∈ l → greater x b = false) → l' = l).
Proof.
  rewrite collectConditionally_spec. eexists. split; [done|].
  unfold grown. split; [|split].
  - rewrite length_take, length_insert_desc.
    destruct (decide _), (Z.of_nat (length l) <? K) eqn:E; lia.
  - etrans; [apply sublist_submseteq, sublist_take|].
    by rewrite (insert_desc_perm greater x l).
  - intros HK Hb. rewrite insert_desc_last by done.
    assert ((Z.of_nat (length l) <? K) = false) as -> by lia.
    by rewrite take_app_length.
Qed.

(** ** The script interface *)

Module starlark_facts.

Lemma SetKey_new d k v : k ∉ d.*1 → starlark.SetKey d k v = d ++ [(k, v)].
Proof.
  induction d as [|[k' v'] d IH]; intros Hk; simpl; [done|].
  rewrite bool_decide_eq_false_2.
  - rewrite IH; [done|]. intros ?. apply Hk. simpl. by right.
  - intros ->. apply Hk. simpl. by left.
Qed.

Lemma Get_app d1 d2 k :
  starlark.Get (d1 ++ d2) k
  = match starlark.Get d1 k with Some v => Some v | None => starlark.Get d2 k end.
Proof.
  induction d1 as [|[k' v'] d1 IH]; simpl; [done|].
  by destruct (bool_decide (k' = k)).
Qed.

Lemma Get_None d k : k ∉ d.*1 → starlark.Get d k = None.
Proof.
  induction d as [|[k' v'] d IH]; intros Hk; simpl; [done|].
  rewrite bool_decide_eq_false_2.
  - apply IH. intros ?. apply Hk. simpl. by right.
  - intros ->. apply Hk. simpl. by left.
Qed.

Lemma Get_fmap {A} (f : A → starlark.Value) (es : list (string * A)) k :
  NoDup es.*1 →
  starlark.Get ((λ e, (e.1, f e.2)) <$> es) k
  = f <$> (list_to_map es : gmap string A) !! k.
Proof.
  induction es as [|[k' v'] es IH]; intros Hnd; simpl; [done|].
  apply NoDup_cons in Hnd as [Hk' Hnd].
  destruct (bool_decide_reflect (k' = k)) as [->|Hne].
  - by rewrite lookup_insert_eq.
  - rewrite lookup_insert_ne by done. by apply IH.
Qed.

Lemma append_values acc vals :
  foldl (λ headers v, headers ++ [starlark.Str v]) acc vals
  = acc ++ (starlark.Str <$> vals).
Proof.
  revert acc. induction vals as [|v vals IH]; intros acc; simpl.
  - by rewrite app_nil_r.
  - rewrite IH. by rewrite <- app_assoc.
Qed.

Lemma set_entries (es : list (string * list string)) d :
  NoDup (d.*1 ++ es.*1) →
  foldl (λ res e,
           let headers := foldl (λ headers v, headers ++ [starlark.Str v]) [] e.2 in
           starlark.SetKey res e.1 (starlark.List headers)) d es
  = d ++ ((λ e, (e.1, star_values e.2)) <$> es).
Proof.
  revert d. induction es as [|[k vals] es IH]; intros d Hnd; simpl.
  - by rewrite app_nil_r.
  - rewrite append_values. simpl.
    rewrite SetKey_new.
    2:{ apply NoDup_app in Hnd as (_ & Hd & _). intros Hk. apply (Hd k Hk).
        simpl. by left. }
    rewrite IH.
    + by rewrite <- app_assoc.
    + rewrite fmap_app. simpl. rewrite <- app_assoc. exact Hnd.
Qed.

Lemma headerToStarDict_entries (order : MapRange) (h : gmap string (list string)) :
  headerToStarDict order h = (λ e, (e.1, star_values e.2)) <$> range_of order h.
Proof.
  unfold headerToStarDict. rewrite set_entries; [done|]. simpl.
  rewrite (range_of_perm order h). apply NoDup_fst_map_to_list.
Qed.

End starlark_facts.

Lemma Fprintln_all (out : string) (printed : list string) :
  foldl Fprintln out printed = out +:+ printed_lines printed.
Proof.
  revert out. induction printed as [|msg printed IH]; intros out; simpl.
  - by rewrite strings_facts.app_nil_r.
  - rewrite IH. unfold Fprintln. by rewrite !strings_facts.app_assoc.
Qed.

Lemma ToStarlark_entries (order : MapRange) (r : RequestData) :
  ToStarlark order r
  = [("Date", starlark.Int (Date r));
     ("ContentLength", starlark.Int (ContentLength r));
     ("Headers", starlark.Dict (headerToStarDict order (Header r)));
     ("Body", starlark.Str (Body r));
     ("Method", starlark.Str (Method r));
     ("Path", starlark.Str (Path r));
     ("Query", starlark.Str (Query r))].
Proof. reflexivity. Qed.

(** X17. [headerToStarDict] builds a dictionary with one entry for each
    header name, whatever the order of the iteration: a name is bound to the
    list of the strings of its values, in their order, and a name that is
    not in the map has no entry. *)
Theorem headerToStarDict_lookup (order : MapRange) (h : gmap string (list string)) :
  length (headerToStarDict order h) = size h
  ∧ NoDup (headerToStarDict order h).*1
  ∧ ∀ name,
      starlark.Get (headerToStarDict order h) name = star_values <$> h !! name.
Proof.
  rewrite starlark_facts.headerToStarDict_entries.
  pose proof (range_of_perm order h) as Hperm.
  assert (NoDup (range_of order h).*1) as Hnd.
  { rewrite Hperm. apply NoDup_fst_map_to_list. }
  split; [|split].
  - rewrite length_fmap, Hperm. by rewrite length_map_to_list.
  - by rewrite <- list_fmap_compose.
  - intros name. rewrite starlark_facts.Get_fmap by done. f_equal.
    rewrite <- (list_to_map_to_list h) at 2. f_equal.
    by apply list_to_map_proper.
Qed.





(** X19. Whenever [scriptResponse] returns, the error it returns is [nil]:
    the script ran without error, and the text returned is what the script
    printed, each message followed by a newline. *)
Theorem scriptResponse_returns (exec : Interpreter) (order : MapRange)
    (bucket script : string) (req : RequestData) (out : string) (err : option string) :
  scriptResponse exec order bucket script req = Returns (out, err) →
  err = None
  ∧ ∃ printed,
      exec bucket "test.star" script [("request", starlark.Dict (ToStarlark order req))]
      = (printed, None)
      ∧ out = printed_lines printed.
Proof.
  unfold scriptResponse.
  destruct (exec _ _ _ _) as [printed [e|]]; [done|].
  intros [= <- <-]. split; [done|]. exists printed. split; [done|].
  by rewrite Fprintln_all.
Qed.

Lemma scriptResponse_returns_witness :
  ∃ printed,
    printing_interpreter "b1" "test.star" "print(1)"
      [("request",
        starlark.Dict (ToStarlark listed_order (captured "GET" "/b1" "" "" ∅)))]
    = (printed, None)
    ∧ "a" +:+ String "010" ("b" +:+ String "010" "") = printed_lines printed.
Proof.
  apply (scriptResponse_returns printing_interpreter listed_order "b1" "print(1)"
           (captured "GET" "/b1" "" "" ∅) _ None).
  reflexivity.
Defined.

(** X20. [scriptResponse] ends the process exactly when the script fails,
    with status 1 and the error of the script logged. *)
Theorem scriptResponse_exits (exec : Interpreter) (order : MapRange)
    (bucket script : string) (req : RequestData) (status : Z) (logged : string) :
  scriptResponse exec order bucket script req = Exits status logged
  ↔ status = 1
    ∧ (exec bucket "test.star" script
         [("request", starlark.Dict (ToStarlark order req))]).2 = Some logged.
Proof.
  unfold scriptResponse.
  destruct (exec _ _ _ _) as [printed [e|]]; simpl; [|split; [done|by intros [_ ?]]].
  split; [by intros [= <- <-]|]. by intros [-> [= ->]].
Qed.

(** X21. [ToRequestData] panics exactly on a request without a URL or
    without a body; a [nil] header map is no obstacle. *)
Theorem ToRequestData_panics_iff (order : MapRange) (now : Z) (req : InboundRequest)
    (σ : store) (h : gmap string (list string)) :
  inbound_headers σ req = Some h →
  ToRequestData order now req σ = Panic
  ↔ in_URL req = None ∨ in_Body req = None.
Proof.
  intros Hh. rewrite (ToRequestData_unfold order now req σ h Hh).
  destruct (in_URL req) as [u|], (in_Body req) as [body|].
  - split; [done|]. by intros [?|?].
  - split; [by right|done].
  - split; [by left|done].
  - split; [by left|done].
Qed.

Lemma ToRequestData_panics_iff_witness :
  ToRequestData listed_order 0 inbound_get inbound_store = Panic
  ↔ in_URL inbound_get = None ∨ in_Body inbound_get = None.
Proof.
  apply (ToRequestData_panics_iff listed_order 0 inbound_get inbound_store
           browser_headers).
  reflexivity.
Defined.
